(** * BibliographyManager (panmirror, api/bibliography/bibliography.ts)

    A shallow embedding of the bibliography manager of the visual editor:
    the aggregate source list, the write policy, the query operations and
    the fuzzy search built on top of a Fuse index.  Each definition carries
    the name of the TypeScript member it transcribes. *)

From stdpp Require Import base option list strings pretty gmap.

Local Open Scope string_scope.
Local Open Scope list_scope.

(** ** JavaScript values and promises *)

(** Property values that occur on a CSL record (strings, numbers, arrays of
    strings such as [collectionKeys]). *)
Inductive JSValue :=
  | JSString (s : string)
  | JSNumber (n : Z)
  | JSStrings (l : list string).

#[global] Instance JSValue_eq_dec : EqDecision JSValue.
Proof. solve_decision. Defined.

(** A CSL record is an open key/value object. *)
Abbreviation CSL := (gmap string JSValue).

(** [v === s] for a property read [v] ([None] is [undefined]) and a string. *)
Definition strict_eq_string (v : option JSValue) (s : string) : bool :=
  match v with
  | Some (JSString t) => bool_decide (t = s)
  | _ => false
  end.

(** A settled promise. *)
Inductive Promise (A : Type) :=
  | Resolved (a : A)
  | Rejected (reason : string).
Arguments Resolved {A} a.
Arguments Rejected {A} reason.

(** ToBoolean of an object reference: every object is truthy, a Promise
    included, whatever it settles to. *)
Definition truthy_object {A : Type} (p : Promise A) : bool := true.

(** ToBoolean of an optional string: [undefined] and [""] are falsy. *)
Definition truthy_string (s : option string) : bool :=
  match s with
  | Some t => negb (bool_decide (t = ""))
  | None => false
  end.

(** [Promise.all]: the list of values, or the first rejection. *)
Fixpoint promise_all {A : Type} (ps : list (Promise A)) : Promise (list A) :=
  match ps with
  | [] => Resolved []
  | Resolved a :: ps' =>
      match promise_all ps' with
      | Resolved l => Resolved (a :: l)
      | Rejected r => Rejected r
      end
  | Rejected r :: _ => Rejected r
  end.

(** [array.reduce((prev, curr) => prev || curr)] without an initial value:
    a TypeError ([None]) on the empty array. *)
Definition reduce_or (bs : list bool) : option bool :=
  match bs with
  | [] => None
  | b :: bs' => Some (foldl orb b bs')
  end.

(** ** lodash.uniqby *)

(** [uniqby(array, iteratee)]: one pass that keeps an element when the value
    of the iteratee has not been seen before. *)
Fixpoint uniqby_from {A K : Type} `{EqDecision K}
    (seen : list K) (iteratee : A → K) (array : list A) : list A :=
  match array with
  | [] => []
  | x :: rest =>
      if bool_decide (iteratee x ∈ seen)
      then uniqby_from seen iteratee rest
      else x :: uniqby_from (iteratee x :: seen) iteratee rest
  end.

Definition uniqby {A K : Type} `{EqDecision K}
    (array : list A) (iteratee : A → K) : list A :=
  uniqby_from [] iteratee array.

(** ** Data model *)

Record BibliographyFile := {
  displayPath : string;
  fullPath : string;
  isProject : bool;
  writable : bool;
}.

Record BibliographyCollection := {
  collection_name : string;
  collection_key : string;
  parentKey : option string;
}.

(** [BibliographySource extends CSL]: the three declared members, and the
    remaining properties of the object in [csl]. *)
Record BibliographySource := {
  id : string;
  providerKey : string;
  collectionKeys : list string;
  csl : CSL;
}.

#[global] Instance BibliographySource_eq_dec : EqDecision BibliographySource.
Proof. solve_decision. Defined.

(** Property read [source.name] on a source typed [any]. *)
Definition prop (source : BibliographySource) (name : string) : option JSValue :=
  if bool_decide (name = "id") then Some (JSString (id source))
  else if bool_decide (name = "providerKey") then Some (JSString (providerKey source))
  else if bool_decide (name = "collectionKeys") then Some (JSStrings (collectionKeys source))
  else csl source !! name.

(** The fields and weights that are indexed (weights in thousandths). *)
Definition kFields : list (string * N) :=
  [ ("id", 300%N); ("author.family", 275%N); ("author.literal", 275%N);
    ("title", 100%N); ("author.given", 25%N); ("issued", 25%N);
    ("provider", 0%N) ].

(** ** The collaborators of the manager

    The modules the manager imports: the document model and the editor UI
    context, the YAML parser, the key of the local provider, the generic
    CSL to BibLaTeX conversion, and the scoring of fuse.js (the hits of a
    query over the indexed documents, best first, before any limit). *)
Class Host := {
  ProsemirrorNode : Type;
  EditorUI : Type;
  ParsedYaml : Type;
  parseYamlNodes : ProsemirrorNode → list ParsedYaml;
  getDocumentPath : EditorUI → option string;
  getDefaultResourceDir : EditorUI → string;
  kLocalBiliographyProviderKey : string;
  toBibLaTeX : string → CSL → option string;
  fuse_rank : list string → list BibliographySource → string → list BibliographySource;
}.

Section Manager.
Context {H : Host}.

(** What a provider serves between two loads. *)
Record ProviderData := {
  collections : ProsemirrorNode → EditorUI → list BibliographyCollection;
  items : list BibliographySource;
  itemsForCollection : string → list BibliographySource;
  bibliographyPaths : ProsemirrorNode → EditorUI → list BibliographyFile;
  generateBibLaTeX_of : EditorUI → string → CSL → Promise (option string);
  warningMessage : option string;
}.

(** [interface BibliographyDataProvider]: [load] takes the data the
    provider holds to the data it holds afterwards and the promised
    [changed] flag. *)
Record BibliographyDataProvider := {
  key : string;
  name : string;
  data : ProviderData;
  load_of : ProviderData → option string → string → list ParsedYaml →
            ProviderData * Promise bool;
}.

(** [provider.load(docPath, resourcePath, yamlBlocks)] *)
Definition provider_load (provider : BibliographyDataProvider)
    (docPath : option string) (resourcePath : string)
    (yamlBlocks : list ParsedYaml) : BibliographyDataProvider * Promise bool :=
  let r := load_of provider (data provider) docPath resourcePath yamlBlocks in
  ({| key := key provider; name := name provider;
      data := r.1; load_of := load_of provider |}, r.2).

(** The Fuse object: the documents and the keys it was built from.
    [fuse_object] stands for the identity of the object: every [new Fuse]
    yields an object distinct from the one the manager held before. *)
Record Fuse := {
  fuse_object : nat;
  fuse_docs : list BibliographySource;
  fuse_keys : list string;
}.

Definition new_object (held : option Fuse) : nat :=
  match held with
  | Some previous => S (fuse_object previous)
  | None => 0
  end.

(** [fuse.search(query, {limit, ...})]: the ranked hits, cut at [limit]. *)
Definition fuse_search (fuse : Fuse) (query : string) (limit : nat)
    : list BibliographySource :=
  take limit (fuse_rank (fuse_keys fuse) (fuse_docs fuse) query).

(** The private fields of [class BibliographyManager] ([writable_flag] is
    the field [writable]). *)
Record BibliographyManager := {
  fuse : option Fuse;
  providers : list BibliographyDataProvider;
  sources : option (list BibliographySource);
  writable_flag : option bool;
}.

(** [constructor(server, zoteroServer)], given the two provider objects
    it creates. *)
Definition constructor (local zotero : BibliographyDataProvider)
    : BibliographyManager :=
  {| fuse := None; providers := [local; zotero];
     sources := None; writable_flag := None |}.

Definition isWritable (m : BibliographyManager) : bool :=
  default false (writable_flag m).

Definition bibliographyFiles (m : BibliographyManager)
    (doc : ProsemirrorNode) (ui : EditorUI) : list BibliographyFile :=
  let writablePaths := (λ provider, bibliographyPaths (data provider) doc ui) <$> providers m in
  concat writablePaths.

Definition shouldAllowWrites (m : BibliographyManager)
    (doc : ProsemirrorNode) (ui : EditorUI) : bool :=
  let bibliographyFiles := bibliographyFiles m doc ui in
  if bool_decide (length bibliographyFiles = 0) then true
  else bool_decide (0 < length (filter (λ bibFile, writable bibFile = true) bibliographyFiles))%nat.

Definition writableBibliographyFiles (m : BibliographyManager)
    (doc : ProsemirrorNode) (ui : EditorUI) : list BibliographyFile :=
  filter (λ bibFile, writable bibFile = true) (bibliographyFiles m doc ui).

Definition updateIndex (bibSources : list BibliographySource)
    (m : BibliographyManager) : BibliographyManager :=
  let keys := fst <$> kFields in
  {| fuse := Some {| fuse_object := new_object (fuse m);
                     fuse_docs := bibSources; fuse_keys := keys |};
     providers := providers m; sources := sources m;
     writable_flag := writable_flag m |}.

(** [load(ui, doc)]: the manager afterwards and how the promise settles. *)
Definition load (ui : EditorUI) (doc : ProsemirrorNode)
    (m : BibliographyManager) : BibliographyManager * Promise unit :=
  let parsedYamlNodes := parseYamlNodes doc in
  let docPath := getDocumentPath ui in
  let loaded := (λ provider,
      provider_load provider docPath (getDefaultResourceDir ui) parsedYamlNodes)
      <$> providers m in
  let m1 := {| fuse := fuse m; providers := loaded.*1;
               sources := sources m; writable_flag := writable_flag m |} in
  match promise_all (loaded.*2) with
  | Rejected r => (m1, Rejected r)
  | Resolved providersNeedUpdate =>
      let m2 := {| fuse := fuse m1; providers := providers m1;
                   sources := sources m1;
                   writable_flag := Some (shouldAllowWrites m1 doc ui) |} in
      match reduce_or providersNeedUpdate with
      | None => (m2, Rejected "TypeError: Reduce of empty array with no initial value")
      | Some needsIndexUpdate =>
          if needsIndexUpdate then
            let providersEntries := (λ provider, items (data provider)) <$> providers m2 in
            let m3 := {| fuse := fuse m2; providers := providers m2;
                         sources := Some (concat providersEntries);
                         writable_flag := writable_flag m2 |} in
            (updateIndex (concat providersEntries) m3, Resolved ())
          else (m2, Resolved ())
      end
  end.

Definition allSources (m : BibliographyManager) : list BibliographySource :=
  match sources m, isWritable m with
  | Some srcs, true => uniqby srcs id
  | _, _ =>
      uniqby (default []
                (filter (λ source, providerKey source = kLocalBiliographyProviderKey)
                   <$> sources m)) id
  end.

Definition hasSources (m : BibliographyManager) : bool :=
  bool_decide (0 < length (allSources m))%nat.

Definition sourcesForProvider (m : BibliographyManager) (providerKey' : string)
    : list BibliographySource :=
  uniqby (filter (λ item, providerKey item = providerKey') (allSources m)) id.

Definition sourcesForProviderCollection (m : BibliographyManager)
    (provider collectionKey : string) : list BibliographySource :=
  uniqby (filter (λ item, collectionKey ∈ collectionKeys item)
                 (sourcesForProvider m provider)) id.

Definition localSources (m : BibliographyManager) : list BibliographySource :=
  filter (λ source, providerKey source = kLocalBiliographyProviderKey) (allSources m).

Definition localProviders (m : BibliographyManager) : list BibliographyDataProvider :=
  providers m.

(** [this.providers.find(prov => prov.key === k)] for an optional [k]. *)
Definition find_provider (m : BibliographyManager) (k : option string)
    : option BibliographyDataProvider :=
  snd <$> list_find (λ prov, Some (key prov) = k) (providers m).

Definition providerName (m : BibliographyManager) (providerKey' : string)
    : option string :=
  let dataProvider := find_provider m (Some providerKey') in
  name <$> dataProvider.

(** [generateBibLaTeX(ui, id, csl, provider?)]: the test on
    [dataProviderBibLaTeX] is the truthiness of the promise object the
    provider returned. *)
Definition generateBibLaTeX (m : BibliographyManager) (ui : EditorUI)
    (id' : string) (csl' : CSL) (provider : option string)
    : Promise (option string) :=
  let fallback := Resolved (toBibLaTeX id' csl') in
  match find_provider m provider with
  | Some dataProvider =>
      let dataProviderBibLaTeX := generateBibLaTeX_of (data dataProvider) ui id' csl' in
      if truthy_object dataProviderBibLaTeX then dataProviderBibLaTeX
      else fallback
  | None => fallback
  end.

(** Truthiness of [provider.warningMessage()]. *)
Definition has_warning (provider : BibliographyDataProvider) : Prop :=
  truthy_string (warningMessage (data provider)) = true.

Definition warning (m : BibliographyManager) : option string :=
  match snd <$> list_find has_warning (providers m) with
  | Some warningProvider => warningMessage (data warningProvider)
  | None => None
  end.

Definition warningForProvider (m : BibliographyManager)
    (providerKey' : option string) : option string :=
  if truthy_string providerKey' then
    match find_provider m providerKey' with
    | Some warningProvider => warningMessage (data warningProvider)
    | None => None
    end
  else None.

Definition findDoiInLocalBibliography (m : BibliographyManager) (doi : string)
    : option BibliographySource :=
  snd <$> list_find (λ source, strict_eq_string (prop source "DOI") doi = true)
            (localSources m).

Definition findIdInLocalBibliography (m : BibliographyManager) (id' : string)
    : option BibliographySource :=
  snd <$> list_find (λ source, id source = id') (localSources m).

Definition searchAllSources (m : BibliographyManager) (query : string)
    (limit : nat) : list BibliographySource :=
  match fuse m with
  | Some fuse' =>
      let results := fuse_search fuse' query limit in
      let items' := results in
      let filteredItems :=
        if isWritable m then items'
        else filter (λ item, strict_eq_string (prop item "provider")
                               kLocalBiliographyProviderKey = true) items' in
      uniqby filteredItems id
  | None => []
  end.

Definition searchProvider (m : BibliographyManager) (query : string)
    (limit : nat) (providerKey' : string) : list BibliographySource :=
  filter (λ item, providerKey item = providerKey') (searchAllSources m query limit).

Definition searchProviderCollection (m : BibliographyManager) (query : string)
    (limit : nat) (providerKey' collectionKey : string) : list BibliographySource :=
  filter (λ item, collectionKey ∈ collectionKeys item)
         (searchProvider m query limit providerKey').

(** [search(query?, providerKey?, collectionKey?)]; the three tests are
    truthiness tests on optional strings. *)
Definition search (m : BibliographyManager) (query providerKey' collectionKey : option string)
    : list BibliographySource :=
  let limit := 1000 in
  if truthy_string query then
    if truthy_string providerKey' && truthy_string collectionKey then
      searchProviderCollection m (default "" query) limit
        (default "" providerKey') (default "" collectionKey)
    else if truthy_string providerKey' then
      searchProvider m (default "" query) limit (default "" providerKey')
    else
      searchAllSources m (default "" query) limit
  else
    if truthy_string providerKey' && truthy_string collectionKey then
      sourcesForProviderCollection m (default "" providerKey') (default "" collectionKey)
    else if truthy_string providerKey' then
      sourcesForProvider m (default "" providerKey')
    else
      allSources m.

End Manager.

(** ** A concrete host and concrete providers

    Used to run the manager on explicit inputs. *)

(** A small index: the hits of a query are the documents whose [id] starts
    with it, in index order. *)
Definition prefix_rank (keys : list string) (docs : list BibliographySource)
    (query : string) : list BibliographySource :=
  filter (λ doc, String.prefix query (id doc) = true) docs.

Definition demoHost : Host := {|
  ProsemirrorNode := unit;
  EditorUI := unit;
  ParsedYaml := string;
  parseYamlNodes := λ _, [];
  getDocumentPath := λ _, None;
  getDefaultResourceDir := λ _, ".";
  kLocalBiliographyProviderKey := "local-bibliography";
  toBibLaTeX := λ id' _, Some ("@misc{" +:+ id' +:+ "}");
  fuse_rank := prefix_rank;
|}.

Definition kLocal : string := "local-bibliography".
Definition kZotero : string := "zotero".

Definition source_of (provider id' : string) (collections' : list string)
    : BibliographySource :=
  {| id := id'; providerKey := provider; collectionKeys := collections'; csl := ∅ |}.

Definition no_data : @ProviderData demoHost := {|
  collections := λ _ _, [];
  items := [];
  itemsForCollection := λ _, [];
  bibliographyPaths := λ _ _, [];
  generateBibLaTeX_of := λ _ _ _, Resolved None;
  warningMessage := None;
|}.

(** A provider that holds nothing until loaded; a load brings in [its] and
    [files] and reports a change when the items differ from those held. *)
Definition provider_serving (k n : string) (its : list BibliographySource)
    (files : list BibliographyFile) (biblatex : option string)
    : @BibliographyDataProvider demoHost :=
  {| key := k; name := n; data := no_data;
     load_of := λ held _ _ _,
       ({| collections := λ _ _, [];
           items := its;
           itemsForCollection := λ c, filter (λ item, c ∈ collectionKeys item) its;
           bibliographyPaths := λ _ _, files;
           generateBibLaTeX_of := λ _ _ _, Resolved biblatex;
           warningMessage := None |},
        Resolved (bool_decide (items held ≠ its))) |}.

Definition bib_file (path : string) (w : bool) : BibliographyFile :=
  {| displayPath := path; fullPath := path; isProject := false; writable := w |}.

(** Local [a1, b1] and remote [a1, c1], no bibliography file on disk. *)
Definition two_providers : @BibliographyManager demoHost :=
  constructor
    (provider_serving kLocal "Bibliography"
       [source_of kLocal "a1" []; source_of kLocal "b1" []] [] None)
    (provider_serving kZotero "Zotero"
       [source_of kZotero "a1" ["C1"]; source_of kZotero "c1" ["C1"]] [] None).

Definition two_providers_loaded : @BibliographyManager demoHost :=
  (load (H:=demoHost) () () two_providers).1.

(** The same sources beside one read-only bibliography file. *)
Definition read_only : @BibliographyManager demoHost :=
  constructor
    (provider_serving kLocal "Bibliography"
       [source_of kLocal "a1" []; source_of kLocal "b1" []]
       [bib_file "refs.bib" false] None)
    (provider_serving kZotero "Zotero"
       [source_of kZotero "c1" ["C1"]] [] None).

Definition read_only_loaded : @BibliographyManager demoHost :=
  (load (H:=demoHost) () () read_only).1.

(** Ids [s0 .. s(n-1)]. *)
Definition numbered (provider : string) (n : nat) : list BibliographySource :=
  (λ i, source_of provider ("s" +:+ pretty i) []) <$> seq 0 n.

(** 501 local sources and the same 501 entries in the remote library. *)
Definition mirrored : @BibliographyManager demoHost :=
  constructor
    (provider_serving kLocal "Bibliography" (numbered kLocal 501) [] None)
    (provider_serving kZotero "Zotero" (numbered kZotero 501) [] None).

Definition mirrored_loaded : @BibliographyManager demoHost :=
  (load (H:=demoHost) () () mirrored).1.

(** 1001 local sources with pairwise distinct ids, nothing remote. *)
Definition distinct : @BibliographyManager demoHost :=
  constructor
    (provider_serving kLocal "Bibliography" (numbered kLocal 1001) [] None)
    (provider_serving kZotero "Zotero" [] [] None).

Definition distinct_loaded : @BibliographyManager demoHost :=
  (load (H:=demoHost) () () distinct).1.

(** ** Notions used in the statements *)

(** The sources of the index that a query matches: every hit, before the
    limit of the search cuts the list. *)
Definition matching {H : Host} (m : BibliographyManager) (query : string)
    : list BibliographySource :=
  match fuse m with
  | Some fuse' => fuse_rank (fuse_keys fuse') (fuse_docs fuse') query
  | None => []
  end.

(** The filter the comment in [searchAllSources] announces, the one
    [allSources] applies: only the sources of the local provider. *)
Definition local_only {H : Host} (l : list BibliographySource)
    : list BibliographySource :=
  filter (λ source, providerKey source = kLocalBiliographyProviderKey) l.

(** The promise a provider returns from its [load] in a manager load. *)
Definition load_flag {H : Host} (ui : EditorUI) (doc : ProsemirrorNode)
    (provider : BibliographyDataProvider) : Promise bool :=
  (provider_load provider (getDocumentPath ui) (getDefaultResourceDir ui)
     (parseYamlNodes doc)).2.

(** The provider once that [load] has run. *)
Definition load_next {H : Host} (ui : EditorUI) (doc : ProsemirrorNode)
    (provider : BibliographyDataProvider) : BibliographyDataProvider :=
  (provider_load provider (getDocumentPath ui) (getDefaultResourceDir ui)
     (parseYamlNodes doc)).1.

(** ** States a manager can be in *)

(** The managers a program can hold: a constructed one, and the manager
    left by any [load] of such a manager. *)
Inductive reachable {H : Host} : BibliographyManager → Prop :=
  | reachable_new local zotero : reachable (constructor local zotero)
  | reachable_load ui doc m : reachable m → reachable (load ui doc m).1.

(** The managers reached from [m0] by any number of loads. *)
Inductive reached_from {H : Host} (m0 : BibliographyManager)
    : BibliographyManager → Prop :=
  | reached_start : reached_from m0 m0
  | reached_load ui doc m : reached_from m0 m → reached_from m0 (load ui doc m).1.

(** The index was built from the aggregate list the manager holds. *)
Definition index_in_sync {H : Host} (m : BibliographyManager) : Prop :=
  match fuse m, sources m with
  | Some index, Some srcs => fuse_docs index = srcs
  | None, None => True
  | _, _ => False
  end.

(** The ranking of the host returns indexed documents only. *)
Definition rank_sound (H : Host) : Prop :=
  ∀ keys docs query x, x ∈ fuse_rank keys docs query → x ∈ docs.

(** ** optional/ace/ace.ts: [computeChange]

    A JavaScript string is the list of its UTF-16 code units. *)

(** [s.charCodeAt(i)]; [None] is the [NaN] of an index out of range. *)
Definition charCodeAt (s : list N) (i : nat) : option N := s !! i.

(** [a === b] on two results of [charCodeAt]: [NaN] equals nothing. *)
Definition same_code (a b : option N) : bool :=
  match a, b with
  | Some x, Some y => bool_decide (x = y)
  | _, _ => false
  end.

(** [s.slice(start, end)] for indices that are not negative. *)
Definition slice (s : list N) (start end' : nat) : list N :=
  take (end' - start) (drop start s).

(** The first loop of [computeChange]: [start] after at most [fuel]
    iterations. *)
Fixpoint scan_start (fuel : nat) (oldVal newVal : list N) (oldEnd start : nat)
    : nat :=
  match fuel with
  | 0 => start
  | S fuel' =>
      if bool_decide (start < oldEnd)
         && same_code (charCodeAt oldVal start) (charCodeAt newVal start)
      then scan_start fuel' oldVal newVal oldEnd (S start)
      else start
  end.

(** The second loop: [oldEnd] and [newEnd] after at most [fuel]
    iterations. *)
Fixpoint scan_ends (fuel : nat) (oldVal newVal : list N)
    (start oldEnd newEnd : nat) : nat * nat :=
  match fuel with
  | 0 => (oldEnd, newEnd)
  | S fuel' =>
      if bool_decide (start < oldEnd) && bool_decide (start < newEnd)
         && same_code (charCodeAt oldVal (oldEnd - 1)) (charCodeAt newVal (newEnd - 1))
      then scan_ends fuel' oldVal newVal start (oldEnd - 1) (newEnd - 1)
      else (oldEnd, newEnd)
  end.

Record Change := {
  change_from : nat;
  change_to : nat;
  change_text : list N;
}.

(** [computeChange(oldVal, newVal)] with loops cut at [fuel] iterations;
    [None] is [null]. *)
Definition computeChange_within (fuel : nat) (oldVal newVal : list N)
    : option Change :=
  if bool_decide (oldVal = newVal) then None
  else
    let start := scan_start fuel oldVal newVal (length oldVal) 0 in
    let ends := scan_ends fuel oldVal newVal start (length oldVal) (length newVal) in
    Some {| change_from := start; change_to := ends.1;
            change_text := slice newVal start ends.2 |}.

(** Neither loop runs more often than [oldVal] is long. *)
Definition computeChange (oldVal newVal : list N) : option Change :=
  computeChange_within (length oldVal) oldVal newVal.

(** The string a change makes of [oldVal]: the text put in place of the
    code units from [change_from] up to [change_to]. *)
Definition apply_change (oldVal : list N) (c : Change) : list N :=
  take (change_from c) oldVal ++ change_text c ++ drop (change_to c) oldVal.

(** ** behaviors/insert_citation/source_panels: the bibliography panel *)

Definition kAllLocalSourcesRootNodeType : string := "All Local Sources".

Set Warnings "-register-all".

(** [NavigationTreeNode], as the panel builds and reads it. *)
Inductive NavigationTreeNode := TreeNode {
  node_key : string;
  node_name : string;
  node_image : option string;
  node_type : string;
  node_children : list NavigationTreeNode;
  node_expanded : bool;
}.

(** The state of the component [BibligraphySourcePanel]. *)
Record PanelState := {
  itemData : list BibliographySource;
  selectedIndex : Z;
  searchTerm : option string;
}.

(** What a key press asks of the dialog that hosts the panel. *)
Inductive PanelRequest :=
  | AddSource (source : BibliographySource)
  | RemoveSource (source : BibliographySource)
  | Confirm.

Definition itemHeight : Z := 64.

Section Panel.
Context {H : Host}.
(** The key of the remote provider (bibliography-provider_zotero). *)
Variable kZoteroProviderKey : string.
(** [props.sourcesToAdd.includes(source)], as the host dialog answers it. *)
Variable included : BibliographySource → bool.

(** The effect [loadData] of the component, run for a selected node. *)
Definition loadData (bibMgr : BibliographyManager)
    (selectedNode : option NavigationTreeNode) (st : PanelState) : PanelState :=
  match selectedNode with
  | Some selectedNode =>
      if bool_decide (node_type selectedNode ≠ kLocalBiliographyProviderKey)
         && bool_decide (node_type selectedNode ≠ kZoteroProviderKey)
         && bool_decide (node_type selectedNode ≠ kAllLocalSourcesRootNodeType)
      then st
      else
        let providerKey' :=
          if bool_decide (node_type selectedNode = kAllLocalSourcesRootNodeType)
          then None else Some (node_type selectedNode) in
        let collectionKey :=
          if bool_decide (node_type selectedNode ≠ kAllLocalSourcesRootNodeType)
             && bool_decide (node_key selectedNode ≠ kZoteroProviderKey)
             && bool_decide (node_key selectedNode ≠ kLocalBiliographyProviderKey)
          then Some (node_key selectedNode) else None in
        {| itemData := search bibMgr (searchTerm st) providerKey' collectionKey;
           selectedIndex := 0;
           searchTerm := searchTerm st |}
  | None => st
  end.

(** [Math.floor(props.height / itemHeight)] for a height in whole pixels. *)
Definition itemsPerPage (height : Z) : Z := (height / itemHeight)%Z.

(** [incrementIndex(event, index)] *)
Definition incrementIndex (st : PanelState) (index : Z) : PanelState :=
  let maxIndex := (Z.of_nat (length (itemData st)) - 1)%Z in
  {| itemData := itemData st;
     selectedIndex := Z.min (Z.max 0 index) maxIndex;
     searchTerm := searchTerm st |}.

(** [itemData[selectedIndex]] *)
Definition selectedSource (st : PanelState) : option BibliographySource :=
  if bool_decide (0 ≤ selectedIndex st)%Z
  then itemData st !! Z.to_nat (selectedIndex st) else None.

(** [toggleSelectedSource(event)] *)
Definition toggleSelectedSource (st : PanelState) : list PanelRequest :=
  match selectedSource st with
  | Some source =>
      if included source then [RemoveSource source] else [AddSource source]
  | None => []
  end.

(** [handleListKeyDown(event)] for [event.key]: the state afterwards and
    the requests made, in order. *)
Definition handleListKeyDown (height : Z) (key' : string) (st : PanelState)
    : PanelState * list PanelRequest :=
  if bool_decide (key' = "ArrowUp") then
    (incrementIndex st (selectedIndex st - 1), [])
  else if bool_decide (key' = "ArrowDown") then
    (incrementIndex st (selectedIndex st + 1), [])
  else if bool_decide (key' = "PageDown") then
    (incrementIndex st (selectedIndex st + itemsPerPage height), [])
  else if bool_decide (key' = "PageUp") then
    (incrementIndex st (selectedIndex st - itemsPerPage height), [])
  else if bool_decide (key' = "Enter") then
    (st, toggleSelectedSource st ++ [Confirm])
  else if bool_decide (key' = " ") then
    (st, toggleSelectedSource st)
  else (st, []).

End Panel.

(** The selection points at an item of the list. *)
Definition selection_in_range (st : PanelState) : Prop :=
  (0 ≤ selectedIndex st < Z.of_nat (length (itemData st)))%Z.

(** ** More concrete inputs *)

(** A provider whose load fails. *)
Definition provider_offline (k n : string) : @BibliographyDataProvider demoHost :=
  {| key := k; name := n; data := no_data;
     load_of := λ held _ _ _, (held, Rejected "offline") |}.

(** The loaded two-provider manager with its remote provider replaced by
    one that is offline. *)
Definition remote_offline : @BibliographyManager demoHost :=
  {| fuse := fuse two_providers_loaded;
     providers := [provider_serving kLocal "Bibliography"
                     [source_of kLocal "a1" []; source_of kLocal "b1" []] [] None;
                   provider_offline kZotero "Zotero"];
     sources := sources two_providers_loaded;
     writable_flag := writable_flag two_providers_loaded |}.

(** The panel showing the three sources of the loaded two-provider
    manager, the last one selected. *)
Definition panel_on_last : PanelState :=
  {| itemData := allSources two_providers_loaded;
     selectedIndex := 2;
     searchTerm := None |}.

(** "abcd" and "axd" as code units. *)
Definition abcd : list N := [97; 98; 99; 100]%N.
Definition axd : list N := [97; 120; 100]%N.

(** * Properties *)

(** ** [uniqby] keeps the first element of every key, in order *)

Section uniqby_facts.
Context {A K : Type} `{EqDecision K} (f : A → K).

Lemma uniqby_from_sublist seen l : uniqby_from seen f l `sublist_of` l.
Proof.
  revert seen. induction l as [|x l IH]; intros seen; simpl; [done|].
  case_bool_decide.
  - by apply sublist_cons.
  - by apply sublist_skip.
Qed.

Lemma uniqby_from_elem seen l x :
  x ∈ uniqby_from seen f l → x ∈ l ∧ f x ∉ seen.
Proof.
  revert seen. induction l as [|a l IH]; intros seen; simpl.
  - by intros ?%elem_of_nil.
  - case_bool_decide as Hseen.
    + intros [??]%IH. split; [by right | done].
    + intros [->|Hin]%elem_of_cons.
      * split; [by left | done].
      * apply IH in Hin as [? Hnot]. split; [by right|].
        intros ?. apply Hnot. by right.
Qed.

Lemma uniqby_from_NoDup seen l : NoDup (f <$> uniqby_from seen f l).
Proof.
  revert seen. induction l as [|a l IH]; intros seen; simpl.
  - constructor.
  - case_bool_decide; [by apply IH|].
    rewrite fmap_cons. constructor; [|by apply IH].
    intros (y & Hy & Hin)%list_elem_of_fmap.
    apply uniqby_from_elem in Hin as [_ Hnot].
    apply Hnot. rewrite Hy. by left.
Qed.

Lemma uniqby_from_first seen l x :
  x ∈ uniqby_from seen f l →
  ∃ l1 l2, l = l1 ++ x :: l2 ∧ ∀ y, y ∈ l1 → f y ≠ f x.
Proof.
  revert seen. induction l as [|a l IH]; intros seen; simpl.
  - by intros ?%elem_of_nil.
  - case_bool_decide as Hseen.
    + intros Hin. pose proof (uniqby_from_elem _ _ _ Hin) as [_ Hnot].
      destruct (IH _ Hin) as (l1 & l2 & -> & Hl1).
      exists (a :: l1), l2. split; [done|].
      intros y [->|Hy]%elem_of_cons; [congruence | by apply Hl1].
    + intros [->|Hin]%elem_of_cons.
      * exists [], l. split; [done|]. by intros y ?%elem_of_nil.
      * pose proof (uniqby_from_elem _ _ _ Hin) as [_ Hnot].
        destruct (IH _ Hin) as (l1 & l2 & -> & Hl1).
        exists (a :: l1), l2. split; [done|].
        intros y [->|Hy]%elem_of_cons; [|by apply Hl1].
        intros Heq. apply Hnot. rewrite <- Heq. by left.
Qed.

Lemma uniqby_from_covers seen l y :
  y ∈ l → f y ∉ seen → ∃ x, x ∈ uniqby_from seen f l ∧ f x = f y.
Proof.
  revert seen. induction l as [|a l IH]; intros seen; simpl.
  - by intros ?%elem_of_nil.
  - intros [->|Hin]%elem_of_cons Hnot.
    + rewrite bool_decide_eq_false_2 by done. exists a. split; [by left | done].
    + case_bool_decide as Hseen; [by apply IH|].
      destruct (decide (f y = f a)) as [Heq|Hne].
      * exists a. split; [by left | done].
      * destruct (IH (f a :: seen) Hin) as (x & ? & ?).
        { intros [?|?]%elem_of_cons; [done | by apply Hnot]. }
        exists x. split; [by right | done].
Qed.

Lemma uniqby_from_length seen l :
  (length (uniqby_from seen f l) ≤ length l)%nat.
Proof. apply sublist_length, uniqby_from_sublist. Qed.

Lemma uniqby_length l : (length (uniqby l f) ≤ length l)%nat.
Proof. apply uniqby_from_length. Qed.

Lemma uniqby_nil : uniqby [] f = [].
Proof. done. Qed.

Lemma uniqby_from_distinct seen l :
  NoDup (f <$> l) → (∀ x, x ∈ l → f x ∉ seen) → uniqby_from seen f l = l.
Proof.
  revert seen. induction l as [|a l IH]; intros seen; simpl; [done|].
  intros [Ha Hl]%NoDup_cons Hseen.
  rewrite bool_decide_eq_false_2 by (apply Hseen; by left).
  f_equal. apply IH; [done|].
  intros x Hx [Heq|?]%elem_of_cons.
  - apply Ha. rewrite <- Heq. by apply list_elem_of_fmap_2.
  - apply (Hseen x); [by right | done].
Qed.

Lemma uniqby_distinct l : NoDup (f <$> l) → uniqby l f = l.
Proof.
  intros. apply uniqby_from_distinct; [done|]. by intros x _ ?%elem_of_nil.
Qed.
End uniqby_facts.

Section Properties.
Context {H : Host}.
Implicit Types (m : BibliographyManager) (ui : EditorUI) (doc : ProsemirrorNode).

(** The part of the aggregate list that the write policy lets through. *)
Lemma allSources_unfold m :
  allSources m =
  uniqby (if isWritable m then default [] (sources m)
          else filter (λ s, providerKey s = kLocalBiliographyProviderKey)
                 (default [] (sources m))) id.
Proof.
  unfold allSources. destruct (sources m) as [srcs|], (isWritable m); done.
Qed.

(** The aggregate list after a load of a freshly constructed manager,
    when one has been assigned: the items of the first provider and then
    those of the second. *)
Lemma load_constructor_sources local zotero ui doc :
  let after p := (provider_load p (getDocumentPath ui)
                    (getDefaultResourceDir ui) (parseYamlNodes doc)).1 in
  match sources (load ui doc (constructor local zotero)).1 with
  | Some srcs => srcs = items (data (after local)) ++ items (data (after zotero))
  | None => True
  end.
Proof.
  intros after. subst after. unfold load, constructor, provider_load; simpl.
  destruct (load_of local _ _ _ _) as [dl [cl|rl]]; simpl; [|done].
  destruct (load_of zotero _ _ _ _) as [dz [cz|rz]]; simpl; [|done].
  destruct (cl || cz); simpl; [|done].
  by rewrite app_nil_r.
Qed.

(** ** BibLaTeX generation *)

Lemma generateBibLaTeX_found m ui i c k p :
  find_provider m k = Some p →
  generateBibLaTeX m ui i c k = generateBibLaTeX_of (data p) ui i c.
Proof. unfold generateBibLaTeX. by intros ->. Qed.

Lemma generateBibLaTeX_not_found m ui i c k :
  find_provider m k = None →
  generateBibLaTeX m ui i c k = Resolved (toBibLaTeX i c).
Proof. unfold generateBibLaTeX. by intros ->. Qed.

(** ** Fuzzy search *)

Lemma searchAllSources_unfold m query limit :
  searchAllSources m query limit =
  uniqby (if isWritable m then take limit (matching m query)
          else filter (λ item, strict_eq_string (prop item "provider")
                                 kLocalBiliographyProviderKey = true)
                 (take limit (matching m query))) id.
Proof.
  unfold searchAllSources, matching, fuse_search.
  destruct (fuse m); [done|].
  rewrite take_nil. by destruct (isWritable m).
Qed.

Lemma searchAllSources_length m query limit :
  (length (searchAllSources m query limit) ≤ limit)%nat.
Proof.
  rewrite searchAllSources_unfold.
  etrans; [apply uniqby_length|].
  destruct (isWritable m).
  - apply firstn_le_length.
  - etrans; [apply length_filter | apply firstn_le_length].
Qed.

(** On a bibliography that is not writable every result carries a
    [provider] property equal to the key of the local provider. *)
Lemma searchAllSources_not_writable m query limit x :
  isWritable m = false →
  x ∈ searchAllSources m query limit →
  prop x "provider" = Some (JSString kLocalBiliographyProviderKey).
Proof.
  intros Hw. rewrite searchAllSources_unfold, Hw.
  unfold uniqby. intros Hx. apply uniqby_from_elem in Hx as [Hx _].
  apply list_elem_of_filter in Hx as [Hx _].
  unfold strict_eq_string in Hx.
  destruct (prop x "provider") as [[t| |]|]; try done.
  by apply bool_decide_eq_true in Hx as ->.
Qed.

(** C4. A fuzzy search issued through [search] with a non-empty query
    returns at most 1000 sources, since the index cuts its hits at 1000
    before they are filtered and deduplicated; it returns exactly 1000
    when more than 1000 sources match, the bibliography is writable, no
    provider filter is given and the first 1000 hits have pairwise
    distinct ids. *)
Theorem search_at_most_limit m query providerKey' collectionKey :
  truthy_string query = true →
  (length (search m query providerKey' collectionKey) ≤ 1000)%nat
  ∧ (isWritable m = true → truthy_string providerKey' = false →
     (1000 < length (matching m (default "" query)))%nat →
     NoDup (id <$> take 1000 (matching m (default "" query))) →
     length (search m query providerKey' collectionKey) = 1000).
Proof.
  intros Hq. unfold search. rewrite Hq. split.
  - destruct (truthy_string providerKey'); simpl.
    + destruct (truthy_string collectionKey); simpl.
      * unfold searchProviderCollection, searchProvider.
        etrans; [apply length_filter|]. etrans; [apply length_filter|].
        apply searchAllSources_length.
      * unfold searchProvider. etrans; [apply length_filter|].
        apply searchAllSources_length.
    + apply searchAllSources_length.
  - intros Hw Hp Hmany Hdistinct. rewrite Hp. simpl.
    rewrite searchAllSources_unfold, Hw, uniqby_distinct by done.
    apply length_take_le. lia.
Qed.

(** ** Loading *)

Lemma promise_all_resolved {A} (ps : list (Promise A)) l :
  promise_all ps = Resolved l → ps = Resolved <$> l.
Proof.
  revert l. induction ps as [|[a|r] ps IH]; intros l; simpl.
  - by intros [= <-].
  - destruct (promise_all ps) as [l'|]; [|done].
    intros [= <-]. simpl. f_equal. by apply IH.
  - done.
Qed.

Lemma promise_all_of_resolved {A} (ps : list (Promise A)) :
  (∀ p, p ∈ ps → ∃ a, p = Resolved a) → ∃ l, promise_all ps = Resolved l.
Proof.
  induction ps as [|p ps IH]; intros Hall; simpl; [by eexists|].
  destruct (Hall p) as [a ->]; [by left|].
  destruct IH as [l ->]; [|by eexists].
  intros q Hq. apply Hall. by right.
Qed.

Lemma foldl_orb_true b bs : foldl orb b bs = true → b = true ∨ true ∈ bs.
Proof.
  revert b. induction bs as [|c bs IH]; intros b; simpl; [by left|].
  intros [[Hb|Hc]%orb_true_iff|Hin]%IH.
  - by left.
  - right. rewrite Hc. by left.
  - right. by right.
Qed.

Lemma reduce_or_true bs : reduce_or bs = Some true → true ∈ bs.
Proof.
  destruct bs as [|b bs]; simpl; [done|].
  intros [= [->|?]%foldl_orb_true]; [by left | by right].
Qed.

Lemma reduce_or_is_Some bs : bs ≠ [] → is_Some (reduce_or bs).
Proof. destruct bs; [done | by eexists]. Qed.

Lemma load_providers ui doc m :
  providers (load ui doc m).1 = load_next ui doc <$> providers m.
Proof.
  unfold load, load_next. rewrite <- !list_fmap_compose.
  destruct (promise_all _) as [bs|]; [|done].
  destruct (reduce_or bs) as [[|]|]; done.
Qed.

(** A load either leaves the aggregate list and the index alone, or some
    provider resolved its load to [true] and both are replaced. *)
Lemma load_cases ui doc m :
  let m' := (load ui doc m).1 in
  (sources m' = sources m ∧ fuse m' = fuse m)
  ∨ ((∃ provider, provider ∈ providers m ∧ load_flag ui doc provider = Resolved true)
     ∧ sources m' = Some (concat ((λ provider, items (data provider)) <$> providers m'))
     ∧ fuse m' =
         Some {| fuse_object := new_object (fuse m);
                 fuse_docs := concat ((λ provider, items (data provider)) <$> providers m');
                 fuse_keys := fst <$> kFields |}).
Proof.
  unfold load. rewrite <- !list_fmap_compose.
  destruct (promise_all _) as [bs|] eqn:Hall; [|by left].
  destruct (reduce_or bs) as [[|]|] eqn:Hred; [|by left|by left].
  right. split; [|done].
  apply promise_all_resolved in Hall. apply reduce_or_true in Hred.
  assert (Hin : Resolved true ∈ (Resolved <$> bs : list (Promise bool)))
    by by apply list_elem_of_fmap_2.
  rewrite <- Hall in Hin.
  apply list_elem_of_fmap in Hin as (provider & Hflag & ?).
  by exists provider.
Qed.

Lemma new_object_fresh (held : option Fuse) docs keys :
  Some {| fuse_object := new_object held; fuse_docs := docs; fuse_keys := keys |} ≠ held.
Proof.
  destruct held as [previous|]; [|done].
  intros [= Heq]. apply (f_equal fuse_object) in Heq. simpl in Heq. lia.
Qed.

Lemma reduce_or_elem bs : true ∈ bs → reduce_or bs = Some true.
Proof.
  destruct bs as [|b bs]; [by intros ?%elem_of_nil|]. simpl. intros Hin. f_equal.
  revert b Hin. induction bs as [|c bs IH]; intros b.
  - by intros [<-|?%elem_of_nil]%elem_of_cons.
  - simpl. intros [<-|[<-|Hin]%elem_of_cons]%elem_of_cons.
    + apply IH. by left.
    + rewrite orb_true_r. apply IH. by left.
    + apply IH. by right.
Qed.

(** When the loads of the providers resolve and one of them resolves to
    [true], the manager holds a new index object afterwards. *)
Lemma load_rebuilds ui doc m bs provider :
  promise_all (load_flag ui doc <$> providers m) = Resolved bs →
  provider ∈ providers m → load_flag ui doc provider = Resolved true →
  fuse (load ui doc m).1 ≠ fuse m.
Proof.
  intros Hall Hin Hflag.
  assert (Hred : reduce_or bs = Some true).
  { apply reduce_or_elem.
    pose proof (promise_all_resolved _ _ Hall) as Hbs.
    assert (Hres : Resolved true ∈ load_flag ui doc <$> providers m)
      by (rewrite <- Hflag; by apply list_elem_of_fmap_2).
    rewrite Hbs in Hres.
    by apply list_elem_of_fmap in Hres as (b & [= <-] & ?). }
  revert Hall. unfold load, load_flag. rewrite <- !list_fmap_compose.
  change (snd ∘ _) with (λ provider : BibliographyDataProvider,
    (provider_load provider (getDocumentPath ui) (getDefaultResourceDir ui)
       (parseYamlNodes doc)).2).
  intros ->. rewrite Hred. simpl. apply new_object_fresh.
Qed.

(** The two providers of a manager reached from a constructed one: the
    first under the key of the local provider it was constructed with,
    the second under the key of the remote one. *)
Lemma reached_providers local zotero m :
  reached_from (constructor local zotero) m →
  ∃ l z, providers m = [l; z] ∧ key l = key local ∧ key z = key zotero.
Proof.
  induction 1 as [|ui doc m _ (l & z & Hp & Hl & Hz)].
  - by exists local, zotero.
  - exists (load_next ui doc l), (load_next ui doc z).
    rewrite load_providers, Hp. done.
Qed.

(** The aggregate list such a manager holds was assigned by a load, from
    the items of the two providers as they stood after it: those of the
    first provider, then those of the second. *)
Lemma reached_sources local zotero m srcs :
  reached_from (constructor local zotero) m → sources m = Some srcs →
  ∃ l z,
    (∃ m1 ui doc, reached_from (constructor local zotero) m1
                  ∧ providers (load ui doc m1).1 = [l; z])
    ∧ key l = key local ∧ key z = key zotero
    ∧ srcs = items (data l) ++ items (data z).
Proof.
  intros Hreach. revert srcs.
  induction Hreach as [|ui doc m Hreach IH]; intros srcs; [done|].
  destruct (load_cases ui doc m) as [[-> _]|(_ & -> & _)]; [apply IH|].
  intros [= <-].
  destruct (reached_providers local zotero m Hreach) as (l & z & Hp & Hl & Hz).
  exists (load_next ui doc l), (load_next ui doc z).
  split; [|split; [done|split; [done|]]].
  - exists m, ui, doc. split; [done|]. by rewrite load_providers, Hp.
  - rewrite load_providers, Hp. simpl. by rewrite app_nil_r.
Qed.

Lemma app_split_first {A} (l1 l2 a b : list A) s :
  l1 ++ s :: l2 = a ++ b → s ∈ a ∨ (s ∈ b ∧ ∀ x, x ∈ a → x ∈ l1).
Proof.
  revert l1. induction a as [|y a IH]; intros l1; simpl.
  - intros <-. right. split; [|by intros x ?%elem_of_nil].
    apply elem_of_app. right. by left.
  - destruct l1 as [|y' l1]; simpl; intros [= -> Heq]; [left; by left|].
    destruct (IH l1 Heq) as [?|[? Hall]]; [left; by right|].
    right. split; [done|].
    intros x [->|?]%elem_of_cons; [by left | right; by apply Hall].
Qed.

(** C1. [allSources()] is the aggregate list, restricted to the sources
    of the local provider when the bibliography is not writable, and
    then deduplicated by [id]: ids are pairwise distinct, the order of
    the list is kept, every id of the list survives, and the survivor
    of an id is its first occurrence.  After a load the aggregate list
    is the items of the local provider followed by those of the remote
    one, so the local copy wins: every load either keeps the list or
    assigns the items of the providers in provider order, and in every
    state reached from a constructed manager by loads the list, when
    there is one, is the items of the first provider followed by those
    of the second, so that a source of [allSources()] that comes from
    the second provider has an id that no item of the first provider let
    through by the write policy has.  With local [a1, b1], remote
    [a1, c1] and a writable bibliography the result is the local a1, b1
    and the remote c1. *)
Theorem allSources_dedup_first_wins :
  (∀ m,
    let visible :=
      if isWritable m then default [] (sources m)
      else filter (λ s, providerKey s = kLocalBiliographyProviderKey)
             (default [] (sources m)) in
    allSources m = uniqby visible id
    ∧ NoDup (id <$> allSources m)
    ∧ allSources m `sublist_of` visible
    ∧ (∀ s, s ∈ visible → ∃ s', s' ∈ allSources m ∧ id s' = id s)
    ∧ (∀ s', s' ∈ allSources m →
         ∃ l1 l2, visible = l1 ++ s' :: l2 ∧ ∀ x, x ∈ l1 → id x ≠ id s'))
  ∧ (∀ local zotero ui doc,
      match sources (load ui doc (constructor local zotero)).1 with
      | Some srcs =>
          srcs =
            items (data (provider_load local (getDocumentPath ui)
                           (getDefaultResourceDir ui) (parseYamlNodes doc)).1)
            ++ items (data (provider_load zotero (getDocumentPath ui)
                              (getDefaultResourceDir ui) (parseYamlNodes doc)).1)
      | None => True
      end)
  ∧ (∀ ui doc m,
      sources (load ui doc m).1 = sources m
      ∨ sources (load ui doc m).1 =
          Some (concat ((λ provider, items (data provider))
                          <$> (load_next ui doc <$> providers m))))
  ∧ (∀ local zotero m,
      reached_from (constructor local zotero) m →
      match sources m with
      | Some srcs =>
          ∃ l z,
            (∃ m1 ui doc, reached_from (constructor local zotero) m1
                          ∧ providers (load ui doc m1).1 = [l; z])
            ∧ key l = key local ∧ key z = key zotero
            ∧ srcs = items (data l) ++ items (data z)
            ∧ (∀ s, s ∈ allSources m →
                 s ∈ items (data l)
                 ∨ (s ∈ items (data z)
                    ∧ ∀ x, x ∈ items (data l) →
                        isWritable m = true
                          ∨ providerKey x = kLocalBiliographyProviderKey →
                        id x ≠ id s))
      | None => True
      end)
  ∧ (isWritable two_providers_loaded = true
     ∧ sources two_providers_loaded =
         Some [source_of kLocal "a1" []; source_of kLocal "b1" [];
               source_of kZotero "a1" ["C1"]; source_of kZotero "c1" ["C1"]]
     ∧ allSources two_providers_loaded =
         [source_of kLocal "a1" []; source_of kLocal "b1" [];
          source_of kZotero "c1" ["C1"]]).
Proof.
  split; [|split; [|split; [|split]]].
  - intros m visible. rewrite allSources_unfold. fold visible.
    split; [done|]. split; [apply uniqby_from_NoDup|].
    split; [apply uniqby_from_sublist|]. split.
    + intros s Hs. apply (uniqby_from_covers id [] visible s Hs).
      by intros ?%elem_of_nil.
    + intros s' Hs'. by apply (uniqby_from_first id [] visible s').
  - intros. apply load_constructor_sources.
  - intros ui doc m.
    destruct (load_cases ui doc m) as [[-> _]|(_ & -> & _)]; [by left|].
    right. by rewrite load_providers.
  - intros local zotero m Hreach.
    destruct (sources m) as [srcs|] eqn:Hsrc; [|done].
    destruct (reached_sources local zotero m srcs Hreach Hsrc)
      as (l & z & Hfrom & Hl & Hz & ->).
    exists l, z. split; [done|]. split; [done|]. split; [done|]. split; [done|].
    intros s Hs. revert Hs. rewrite allSources_unfold, Hsrc. simpl. intros Hs.
    apply (uniqby_from_first id []) in Hs as (l1 & l2 & Hvis & Hfirst).
    destruct (isWritable m).
    + symmetry in Hvis.
      apply app_split_first in Hvis as [?|[? Hall]]; [by left|].
      right. split; [done|]. intros x Hx _. by apply Hfirst, Hall.
    + rewrite filter_app in Hvis. symmetry in Hvis.
      apply app_split_first in Hvis as [[_ ?]%list_elem_of_filter|[[_ ?]%list_elem_of_filter Hall]];
        [by left|].
      right. split; [done|]. intros x Hx [?|Hlocal]; [done|].
      apply Hfirst, Hall. by apply list_elem_of_filter.
  - by vm_compute.
Qed.

(** C5. If every provider's [load] resolves to [changed = false], a
    manager load leaves the aggregate source list and the index as they
    were: the same list and the same index object.  Whenever a load does
    replace either of them, some provider resolved its [load] to
    [changed = true]; and when the provider loads resolve, one of them to
    [true], the index is a new object. *)
Theorem load_without_change_keeps_sources_and_index ui doc m :
  ((∀ provider, provider ∈ providers m → load_flag ui doc provider = Resolved false) →
   sources (load ui doc m).1 = sources m ∧ fuse (load ui doc m).1 = fuse m)
  ∧ ((sources (load ui doc m).1 ≠ sources m ∨ fuse (load ui doc m).1 ≠ fuse m) →
     ∃ provider, provider ∈ providers m ∧ load_flag ui doc provider = Resolved true)
  ∧ ((∀ provider, provider ∈ providers m →
        ∃ changed, load_flag ui doc provider = Resolved changed) →
     (∃ provider, provider ∈ providers m ∧ load_flag ui doc provider = Resolved true) →
     fuse (load ui doc m).1 ≠ fuse m).
Proof.
  split; [|split].
  - destruct (load_cases ui doc m) as [[Hs Hf]|[(provider & Hin & Hflag) _]]; [done|].
    intros Hnone. rewrite (Hnone provider Hin) in Hflag. done.
  - destruct (load_cases ui doc m) as [[Hs Hf]|[? _]]; [by intros [?|?] | done].
  - intros Hresolve (provider & Hin & Hflag).
    destruct (promise_all_of_resolved (load_flag ui doc <$> providers m)) as [bs Hall].
    { intros p (q & -> & Hq)%list_elem_of_fmap. by apply Hresolve. }
    by apply (load_rebuilds ui doc m bs provider).
Qed.

(** ** Write policy *)

Lemma shouldAllowWrites_spec m doc ui :
  shouldAllowWrites m doc ui = true ↔
  bibliographyFiles m doc ui = []
  ∨ ∃ bibFile, bibFile ∈ bibliographyFiles m doc ui ∧ writable bibFile = true.
Proof.
  unfold shouldAllowWrites.
  destruct (bibliographyFiles m doc ui) as [|f0 files] eqn:Hfiles; simpl.
  - split; [by left | done].
  - change (bool_decide (S (length files) = 0)) with false. simpl.
    rewrite bool_decide_eq_true. split.
    + intros Hlen. right.
      destruct (filter _ (f0 :: files)) as [|f fs] eqn:Hfilter; simpl in Hlen; [lia|].
      assert (Hf : f ∈ filter (λ bibFile, writable bibFile = true) (f0 :: files))
        by (rewrite Hfilter; by left).
      apply list_elem_of_filter in Hf as [??]. by exists f.
    + intros [?|(f & Hf & Hw)]; [done|].
      assert (Hin : f ∈ filter (λ bibFile, writable bibFile = true) (f0 :: files))
        by by apply list_elem_of_filter.
      destruct (filter _ (f0 :: files)); simpl; [by apply elem_of_nil in Hin | lia].
Qed.

Lemma load_writable_flag ui doc m bs :
  promise_all (load_flag ui doc <$> providers m) = Resolved bs →
  writable_flag (load ui doc m).1 = Some (shouldAllowWrites (load ui doc m).1 doc ui).
Proof.
  unfold load, load_flag. rewrite <- !list_fmap_compose.
  intros Hall.
  change (snd ∘ _) with (λ provider : BibliographyDataProvider,
    (provider_load provider (getDocumentPath ui) (getDefaultResourceDir ui)
       (parseYamlNodes doc)).2).
  rewrite Hall.
  destruct (reduce_or bs) as [[|]|]; done.
Qed.

Lemma load_settles ui doc m bs :
  promise_all (load_flag ui doc <$> providers m) = Resolved bs →
  providers m ≠ [] → (load ui doc m).2 = Resolved ().
Proof.
  unfold load, load_flag. rewrite <- !list_fmap_compose.
  intros Hall Hne.
  change (snd ∘ _) with (λ provider : BibliographyDataProvider,
    (provider_load provider (getDocumentPath ui) (getDefaultResourceDir ui)
       (parseYamlNodes doc)).2).
  rewrite Hall.
  apply promise_all_resolved in Hall.
  destruct bs as [|b bs]; [by destruct (providers m)|].
  simpl. by destruct (foldl orb b bs).
Qed.

(** C6. When the loads of the providers resolve, the manager after
    [load] is writable if the providers report no bibliography file at
    all, and otherwise exactly when one of the reported files is
    writable; and the load itself completes whenever there is a
    provider. *)
Theorem isWritable_after_load ui doc m :
  (∀ provider, provider ∈ providers m →
     ∃ changed, load_flag ui doc provider = Resolved changed) →
  (bibliographyFiles (load ui doc m).1 doc ui = [] →
     isWritable (load ui doc m).1 = true)
  ∧ (bibliographyFiles (load ui doc m).1 doc ui ≠ [] →
     (isWritable (load ui doc m).1 = true ↔
      ∃ bibFile, bibFile ∈ bibliographyFiles (load ui doc m).1 doc ui
                 ∧ writable bibFile = true))
  ∧ (providers m ≠ [] → (load ui doc m).2 = Resolved ()).
Proof.
  intros Hresolve.
  destruct (promise_all_of_resolved (load_flag ui doc <$> providers m)) as [bs Hall].
  { intros p (provider & -> & Hin)%list_elem_of_fmap. by apply Hresolve. }
  unfold isWritable. rewrite (load_writable_flag _ _ _ _ Hall). simpl.
  split; [|split].
  - intros Hnone. apply shouldAllowWrites_spec. by left.
  - intros Hsome. rewrite shouldAllowWrites_spec.
  split; [by intros [?|?] | by right].
  - by apply (load_settles _ _ _ bs).
Qed.

(** ** Dispatch of [search] *)


(** C8. On a manager that has neither a source list nor an index, every
    query operation returns the empty list: [allSources],
    [sourcesForProvider], [sourcesForProviderCollection], and [search]
    with any arguments, [search("smith")] among them. *)
Theorem unloaded_queries_are_empty m :
  sources m = None → fuse m = None →
  allSources m = []
  ∧ (∀ p, sourcesForProvider m p = [])
  ∧ (∀ p c, sourcesForProviderCollection m p c = [])
  ∧ (∀ query providerKey' collectionKey,
       search m query providerKey' collectionKey = [])
  ∧ search m (Some "smith") None None = [].
Proof.
  intros Hs Hf.
  assert (Hall : allSources m = []) by (unfold allSources; by rewrite Hs).
  assert (Hprov : ∀ p, sourcesForProvider m p = [])
    by (intros p; unfold sourcesForProvider; by rewrite Hall).
  assert (Hcoll : ∀ p c, sourcesForProviderCollection m p c = [])
    by (intros p c; unfold sourcesForProviderCollection; by rewrite Hprov).
  assert (Hfuzzy : ∀ q limit, searchAllSources m q limit = [])
    by (intros q limit; unfold searchAllSources; by rewrite Hf).
  assert (Hsearch : ∀ query providerKey' collectionKey,
            search m query providerKey' collectionKey = []).
  { intros query providerKey' collectionKey.
    unfold search, searchProviderCollection, searchProvider.
    rewrite Hfuzzy.
    destruct (truthy_string query), (truthy_string providerKey'),
             (truthy_string collectionKey); simpl;
      by rewrite ?Hcoll, ?Hprov, ?Hall. }
  by rewrite Hsearch.
Qed.

(** C9. [search(query, undefined, c)] does not look at [c]: for a
    non-empty query it is [searchAllSources(query, 1000)], for an empty
    or undefined query it is [allSources()]; with a provider key and a
    non-empty [c] the collection filter is applied. *)
Theorem search_collection_without_provider m query c :
  search m query None c =
    (if truthy_string query then searchAllSources m (default "" query) 1000
     else allSources m)
  ∧ search m query None c = search m query None None
  ∧ (∀ p, truthy_string (Some p) = true → truthy_string c = true →
       search m query (Some p) c =
         if truthy_string query
         then filter (λ item, default "" c ∈ collectionKeys item)
                (searchProvider m (default "" query) 1000 p)
         else uniqby (filter (λ item, default "" c ∈ collectionKeys item)
                        (sourcesForProvider m p)) id).
Proof.
  split; [done|]. split; [done|].
  intros p Hp Hc. unfold search. rewrite Hp, Hc. simpl.
  by destruct (truthy_string query).
Qed.

(** ** The provider list *)

(** C10. [localProviders()] is the whole provider list of the manager,
    whatever the other fields hold: for a constructed manager the local
    provider and then the remote one, and after a load the same
    providers, each in its state after the load, in the same order and
    under the same keys. *)
Theorem localProviders_returns_every_provider :
  (∀ m, localProviders m = providers m)
  ∧ (∀ index list aggregate flag,
       localProviders {| fuse := index; providers := list;
                         sources := aggregate; writable_flag := flag |} = list)
  ∧ (∀ local zotero, localProviders (constructor local zotero) = [local; zotero])
  ∧ (∀ ui doc m,
       localProviders (load ui doc m).1 = load_next ui doc <$> localProviders m
       ∧ key <$> localProviders (load ui doc m).1 = key <$> localProviders m
       ∧ length (localProviders (load ui doc m).1) = length (localProviders m)).
Proof.
  split; [done|]. split; [done|]. split; [done|].
  intros ui doc m. unfold localProviders. rewrite load_providers.
  split; [done|]. split.
  - by rewrite <- list_fmap_compose.
  - by rewrite length_fmap.
Qed.

End Properties.

(** * Runs on concrete inputs *)

(** C2. The remote provider of the loaded two-provider manager resolves
    its own BibLaTeX to [undefined], and the generic conversion of the
    record yields a value; [generateBibLaTeX] for that provider still
    resolves to [undefined]: the promise the provider returned is
    handed back as it is. *)
Theorem generateBibLaTeX_provider_undefined_no_fallback :
  (∃ p, find_provider two_providers_loaded (Some kZotero) = Some p
        ∧ generateBibLaTeX_of (data p) () "a1" ∅ = Resolved None)
  ∧ toBibLaTeX (Host:=demoHost) "a1" ∅ = Some "@misc{a1}"
  ∧ generateBibLaTeX two_providers_loaded () "a1" ∅ (Some kZotero) = Resolved None
  ∧ generateBibLaTeX two_providers_loaded () "a1" ∅ None = Resolved (Some "@misc{a1}").
Proof.
  split; [|by vm_compute].
  eexists. split; by vm_compute.
Qed.

(** C3. The loaded manager beside a read-only bibliography file is not
    writable; the query "a" hits the local source a1, whose
    [providerKey] is the key of the local provider; deduplicating the
    hits of the local provider gives that source, and [allSources()]
    returns it, but the fuzzy search returns nothing: it compares the
    [provider] property, which the source does not have. *)
Theorem searchAllSources_drops_local_sources :
  isWritable read_only_loaded = false
  ∧ take 1000 (matching read_only_loaded "a") = [source_of kLocal "a1" []]
  ∧ providerKey (source_of kLocal "a1" []) = kLocalBiliographyProviderKey (Host:=demoHost)
  ∧ prop (source_of kLocal "a1" []) "provider" = None
  ∧ uniqby (local_only (H:=demoHost) (take 1000 (matching read_only_loaded "a"))) id
      = [source_of kLocal "a1" []]
  ∧ allSources read_only_loaded
      = [source_of kLocal "a1" []; source_of kLocal "b1" []]
  ∧ searchAllSources read_only_loaded "a" 1000 = []
  ∧ search read_only_loaded (Some "a") None None = [].
Proof.
  repeat split; by vm_compute.
Qed.


(** C4: the mirrored library has 1002 sources whose id starts with "s";
    the search for "s" returns 501 of them, not 1000. *)
Lemma search_cap_not_exact :
  ¬ ((1000 < length (matching mirrored_loaded "s"))%nat →
     length (search mirrored_loaded (Some "s") None None) = 1000).
Proof.
  intros Hclaim.
  assert (Hmany : (1000 < length (matching mirrored_loaded "s"))%nat)
    by (vm_compute; lia).
  apply Hclaim in Hmany. vm_compute in Hmany. discriminate.
Qed.

Lemma ids_distinct (l : list BibliographySource) :
  bool_decide (NoDup (id <$> l)) = true → NoDup (id <$> l).
Proof. apply bool_decide_eq_true_1. Qed.

Lemma search_at_most_limit_witness :
  truthy_string (Some "s") = true
  ∧ (length (search distinct_loaded (Some "s") None None) ≤ 1000)%nat
  ∧ length (search distinct_loaded (Some "s") None None) = 1000.
Proof.
  split; [reflexivity|].
  destruct (search_at_most_limit distinct_loaded (Some "s") None None eq_refl)
    as [Hle Hexact].
  split; [exact Hle|].
  apply Hexact.
  - vm_compute; reflexivity.
  - reflexivity.
  - vm_compute; lia.
  - apply ids_distinct. vm_compute; reflexivity.
Defined.

Lemma load_without_change_keeps_sources_and_index_witness :
  (∀ provider, provider ∈ providers two_providers_loaded →
     load_flag (H:=demoHost) () () provider = Resolved false)
  ∧ sources (load (H:=demoHost) () () two_providers_loaded).1 = sources two_providers_loaded
  ∧ fuse (load (H:=demoHost) () () two_providers_loaded).1 = fuse two_providers_loaded.
Proof.
  assert (Hflags : ∀ provider, provider ∈ providers two_providers_loaded →
                     load_flag (H:=demoHost) () () provider = Resolved false).
  { unfold two_providers_loaded. rewrite load_providers. simpl.
    intros provider [->|[->|[]%elem_of_nil]%elem_of_cons]%elem_of_cons;
      vm_compute; reflexivity. }
  split; [exact Hflags|].
  apply (proj1 (load_without_change_keeps_sources_and_index (H:=demoHost) () ()
                  two_providers_loaded)).
  exact Hflags.
Defined.

Lemma isWritable_after_load_witness :
  (∀ provider, provider ∈ providers read_only →
     ∃ changed, load_flag (H:=demoHost) () () provider = Resolved changed)
  ∧ bibliographyFiles (H:=demoHost) (load (H:=demoHost) () () read_only).1 () () = [bib_file "refs.bib" false]
  ∧ isWritable (load (H:=demoHost) () () read_only).1 = false
  ∧ (load (H:=demoHost) () () read_only).2 = Resolved ().
Proof.
  assert (Hflags : ∀ provider, provider ∈ providers read_only →
                     ∃ changed, load_flag (H:=demoHost) () () provider = Resolved changed).
  { simpl.
    intros provider [->|[->|[]%elem_of_nil]%elem_of_cons]%elem_of_cons;
      eexists; vm_compute; reflexivity. }
  destruct (isWritable_after_load (H:=demoHost) () () read_only Hflags) as (_ & Hiff & Hsettles).
  split; [exact Hflags|]. split; [vm_compute; reflexivity|].
  split; [|apply Hsettles; simpl; discriminate].
  destruct (isWritable (load (H:=demoHost) () () read_only).1) eqn:Hw; [|reflexivity].
  exfalso.
  assert (Hfiles : bibliographyFiles (H:=demoHost) (load (H:=demoHost) () () read_only).1 () ()
                   = [bib_file "refs.bib" false]) by (vm_compute; reflexivity).
  rewrite Hfiles in Hiff.
  destruct Hiff as [Hex _]; [discriminate|].
  destruct (Hex eq_refl) as (f & [->|[]%elem_of_nil]%elem_of_cons & Hwf).
  simpl in Hwf. discriminate.
Defined.



Lemma unloaded_queries_are_empty_witness :
  sources two_providers = None ∧ fuse two_providers = None
  ∧ allSources two_providers = []
  ∧ search two_providers (Some "smith") None None = []
  ∧ search two_providers (Some "smith") (Some kZotero) (Some "C1") = [].
Proof.
  destruct (unloaded_queries_are_empty two_providers eq_refl eq_refl)
    as (Hall & _ & _ & Hsearch & Hsmith).
  split; [reflexivity|]. split; [reflexivity|].
  split; [exact Hall|]. split; [exact Hsmith | apply Hsearch].
Defined.

(** * Further properties of the manager, the editor and the panel *)

Section ListQueries.
Context {H : Host}.
Implicit Types (m : BibliographyManager) (ui : EditorUI) (doc : ProsemirrorNode).

(** ** The list queries *)

Lemma allSources_NoDup m : NoDup (id <$> allSources m).
Proof. rewrite allSources_unfold. apply uniqby_from_NoDup. Qed.

Lemma filter_ids_NoDup (P : BibliographySource → Prop) `{∀ x, Decision (P x)}
    (l : list BibliographySource) :
  NoDup (id <$> l) → NoDup (id <$> filter P l).
Proof.
  intros Hl. eapply sublist_NoDup; [exact Hl|].
  apply fmap_sublist, sublist_filter.
Qed.

Lemma sourcesForProvider_filter m p :
  sourcesForProvider m p = filter (λ item, providerKey item = p) (allSources m).
Proof.
  unfold sourcesForProvider. apply uniqby_distinct.
  apply filter_ids_NoDup, allSources_NoDup.
Qed.

Lemma sourcesForProviderCollection_filter m p c :
  sourcesForProviderCollection m p c =
  filter (λ item, c ∈ collectionKeys item)
    (filter (λ item, providerKey item = p) (allSources m)).
Proof.
  unfold sourcesForProviderCollection. rewrite sourcesForProvider_filter.
  apply uniqby_distinct.
  do 2 apply filter_ids_NoDup. apply allSources_NoDup.
Qed.

(** X1. [sourcesForProvider(p)] is [allSources()] restricted to the sources
    of provider [p], in the same order: the second deduplication removes
    nothing, and the ids of the result are pairwise distinct. *)
Theorem sourcesForProvider_is_filter m p :
  sourcesForProvider m p = filter (λ item, providerKey item = p) (allSources m)
  ∧ (∀ s, s ∈ sourcesForProvider m p ↔ s ∈ allSources m ∧ providerKey s = p)
  ∧ NoDup (id <$> sourcesForProvider m p)
  ∧ sourcesForProvider m p `sublist_of` allSources m.
Proof.
  rewrite sourcesForProvider_filter. split; [done|]. split; [|split].
  - intros s. rewrite list_elem_of_filter. tauto.
  - apply filter_ids_NoDup, allSources_NoDup.
  - apply sublist_filter.
Qed.

(** X2. [sourcesForProviderCollection(p, c)] is exactly the sources of
    [allSources()] that belong to provider [p] and list [c] among their
    collection keys, in the order of [allSources()]; nothing is lost to
    the deduplication, and it is a part of [sourcesForProvider(p)]. *)
Theorem sourcesForProviderCollection_is_filter m p c :
  (∀ s, s ∈ sourcesForProviderCollection m p c ↔
        s ∈ allSources m ∧ providerKey s = p ∧ c ∈ collectionKeys s)
  ∧ sourcesForProviderCollection m p c
      = filter (λ item, c ∈ collectionKeys item) (sourcesForProvider m p)
  ∧ sourcesForProviderCollection m p c `sublist_of` sourcesForProvider m p
  ∧ NoDup (id <$> sourcesForProviderCollection m p c).
Proof.
  rewrite sourcesForProviderCollection_filter, sourcesForProvider_filter.
  split; [|split; [done|split]].
  - intros s. rewrite !list_elem_of_filter. tauto.
  - apply sublist_filter.
  - do 2 apply filter_ids_NoDup. apply allSources_NoDup.
Qed.

Lemma allSources_elem m s :
  s ∈ allSources m →
  s ∈ default [] (sources m)
  ∧ (isWritable m = true ∨ providerKey s = kLocalBiliographyProviderKey).
Proof.
  rewrite allSources_unfold. unfold uniqby. intros Hs.
  apply uniqby_from_elem in Hs as [Hs _].
  destruct (isWritable m); [by auto|].
  apply list_elem_of_filter in Hs as [??]. by auto.
Qed.

Lemma filter_all {A} (P : A → Prop) `{∀ x, Decision (P x)} (l : list A) :
  (∀ x, x ∈ l → P x) → filter P l = l.
Proof.
  induction l as [|a l IH]; intros Hall; [done|].
  rewrite filter_cons_True by (apply Hall; by left).
  f_equal. apply IH. intros x Hx. apply Hall. by right.
Qed.

(** X3. [localSources()] is [sourcesForProvider] of the local provider;
    on a bibliography that is not writable it is all of [allSources()],
    and then every source of [allSources()] is a local one. *)
Theorem localSources_is_local_provider m :
  localSources m = sourcesForProvider m kLocalBiliographyProviderKey
  ∧ (isWritable m = false →
     localSources m = allSources m
     ∧ ∀ s, s ∈ allSources m → providerKey s = kLocalBiliographyProviderKey).
Proof.
  split; [by rewrite sourcesForProvider_filter|].
  intros Hw.
  assert (Hlocal : ∀ s, s ∈ allSources m →
            providerKey s = kLocalBiliographyProviderKey).
  { intros s [_ [Hw'|?]]%allSources_elem; [congruence | done]. }
  split; [|done]. unfold localSources. by apply filter_all.
Qed.

(** X4. [hasSources()] holds exactly when the aggregate list has a source
    that the write policy lets through: any source when the bibliography
    is writable, a source of the local provider otherwise. *)
Theorem hasSources_iff_visible_source m :
  hasSources m = true ↔
  ∃ s, s ∈ default [] (sources m)
       ∧ (isWritable m = true ∨ providerKey s = kLocalBiliographyProviderKey).
Proof.
  unfold hasSources. rewrite bool_decide_eq_true. split.
  - destruct (allSources m) as [|s l] eqn:Hall; simpl; [lia|]. intros _.
    exists s. apply allSources_elem. rewrite Hall. by left.
  - intros (s & Hs & Hvis).
    assert (Hin : ∃ s', s' ∈ allSources m ∧ id s' = id s).
    { rewrite allSources_unfold.
      apply (uniqby_from_covers id []); [|by intros ?%elem_of_nil].
      destruct (isWritable m); [done|].
      apply list_elem_of_filter. by destruct Hvis. }
    destruct Hin as (s' & Hs' & _).
    destruct (allSources m); [by apply elem_of_nil in Hs' | simpl; lia].
Qed.

Lemma find_in_localSources_found m (P : BibliographySource → Prop)
    `{∀ x, Decision (P x)} n s :
  list_find P (localSources m) = Some (n, s) →
  s ∈ allSources m ∧ providerKey s = kLocalBiliographyProviderKey ∧ P s.
Proof.
  unfold localSources. intros (Hl & HP & _)%list_find_Some.
  apply list_elem_of_lookup_2 in Hl. apply list_elem_of_filter in Hl. tauto.
Qed.

Lemma find_in_localSources_none m (P : BibliographySource → Prop)
    `{∀ x, Decision (P x)} :
  list_find P (localSources m) = None ↔
  ∀ s, s ∈ allSources m → providerKey s = kLocalBiliographyProviderKey → ¬ P s.
Proof.
  unfold localSources. rewrite list_find_None, Forall_forall. split.
  - intros Hnone s Hs Hp. apply Hnone. by apply list_elem_of_filter.
  - intros Hnone s [??]%list_elem_of_filter. by apply Hnone.
Qed.

Lemma allSources_id_inj m s s' :
  s ∈ allSources m → s' ∈ allSources m → id s = id s' → s = s'.
Proof.
  intros [a Ha]%list_elem_of_lookup [b Hb]%list_elem_of_lookup Hid.
  assert (a = b) as ->; [|congruence].
  apply (NoDup_lookup _ a b (id s) (allSources_NoDup m));
    rewrite list_lookup_fmap.
  - by rewrite Ha.
  - rewrite Hb. simpl. by f_equal.
Qed.

(** X5. [findIdInLocalBibliography(id)] returns a source exactly when
    [allSources()] holds a source of the local provider with that id, and
    then it returns that source, which is the only one; it returns
    [undefined] exactly when there is none. *)
Theorem findIdInLocalBibliography_spec m i :
  (∀ s, findIdInLocalBibliography m i = Some s ↔
        s ∈ allSources m ∧ providerKey s = kLocalBiliographyProviderKey ∧ id s = i)
  ∧ (findIdInLocalBibliography m i = None ↔
     ∀ s, s ∈ allSources m → providerKey s = kLocalBiliographyProviderKey → id s ≠ i).
Proof.
  unfold findIdInLocalBibliography. split.
  - intros s.
    destruct (list_find _ (localSources m)) as [[n s']|] eqn:Hfind; simpl.
    + apply find_in_localSources_found in Hfind as (Hs' & Hp' & Hid').
      split; [by intros [= <-]|].
      intros (Hs & _ & Hid). f_equal.
      apply (allSources_id_inj m); [done..|congruence].
    + split; [done|]. intros (Hs & Hp & Hid).
      rewrite find_in_localSources_none in Hfind. by destruct (Hfind s).
  - rewrite fmap_None. apply find_in_localSources_none.
Qed.

(** X6. [findDoiInLocalBibliography(doi)] returns a source of the local
    provider held by [allSources()] whose [DOI] property is the string
    [doi]; it returns [undefined] exactly when [allSources()] has no such
    local source. *)
Theorem findDoiInLocalBibliography_spec m doi :
  (∀ s, findDoiInLocalBibliography m doi = Some s →
        s ∈ allSources m ∧ providerKey s = kLocalBiliographyProviderKey
        ∧ prop s "DOI" = Some (JSString doi))
  ∧ (findDoiInLocalBibliography m doi = None ↔
     ∀ s, s ∈ allSources m → providerKey s = kLocalBiliographyProviderKey →
          prop s "DOI" ≠ Some (JSString doi)).
Proof.
  assert (Hdoi : ∀ s, strict_eq_string (prop s "DOI") doi = true ↔
                      prop s "DOI" = Some (JSString doi)).
  { intros s. unfold strict_eq_string.
    destruct (prop s "DOI") as [[t| |]|]; try (split; [done | by intros [=]]).
    rewrite bool_decide_eq_true. split; [by intros -> | by intros [= ->]]. }
  unfold findDoiInLocalBibliography. split.
  - intros s.
    destruct (list_find _ (localSources m)) as [[n s']|] eqn:Hfind; [|done].
    intros [= <-].
    apply find_in_localSources_found in Hfind as (? & ? & ?%Hdoi). done.
  - rewrite fmap_None, find_in_localSources_none.
    split; intros Hnone s Hs Hp; specialize (Hnone s Hs Hp); by rewrite ?Hdoi, <- ?Hdoi in *.
Qed.

End ListQueries.

Section FilesNamesWarnings.
Context {H : Host}.
Implicit Types (m : BibliographyManager) (ui : EditorUI) (doc : ProsemirrorNode).

(** ** Files, names and warnings *)

Lemma filter_nil_iff {A} (P : A → Prop) `{∀ x, Decision (P x)} (l : list A) :
  filter P l = [] ↔ ∀ x, x ∈ l → ¬ P x.
Proof.
  split.
  - intros Hnil x Hx HP.
    assert (Hin : x ∈ filter P l) by by apply list_elem_of_filter.
    rewrite Hnil in Hin. by apply elem_of_nil in Hin.
  - intros Hnone. destruct (filter P l) as [|x l'] eqn:Hf; [done|].
    assert (Hin : x ∈ filter P l) by (rewrite Hf; by left).
    apply list_elem_of_filter in Hin as [??]. by destruct (Hnone x).
Qed.

Lemma elem_of_concat {A} (x : A) (ls : list (list A)) :
  x ∈ concat ls ↔ ∃ l, l ∈ ls ∧ x ∈ l.
Proof.
  induction ls as [|l0 ls IH]; simpl.
  - split; [by intros ?%elem_of_nil | by intros (l & ?%elem_of_nil & _)].
  - rewrite elem_of_app, IH. split.
    + intros [?|(l & ? & ?)]; [exists l0; split; [by left | done]|].
      exists l. split; [by right | done].
    + intros (l & [->|?]%elem_of_cons & ?); [by left|]. right. by exists l.
Qed.

(** X7. After a load whose provider loads resolve, a manager that is not
    writable has no writable bibliography file to offer, although it has
    bibliography files; and a writable manager with bibliography files
    offers at least one.  The offered files are those of the providers,
    in provider order, whose [writable] flag is set. *)
Theorem writableBibliographyFiles_after_load ui doc m :
  (∀ provider, provider ∈ providers m →
     ∃ changed, load_flag ui doc provider = Resolved changed) →
  (isWritable (load ui doc m).1 = false →
     writableBibliographyFiles (load ui doc m).1 doc ui = []
     ∧ bibliographyFiles (load ui doc m).1 doc ui ≠ [])
  ∧ (isWritable (load ui doc m).1 = true →
     bibliographyFiles (load ui doc m).1 doc ui ≠ [] →
     writableBibliographyFiles (load ui doc m).1 doc ui ≠ [])
  ∧ (∀ f, f ∈ writableBibliographyFiles (load ui doc m).1 doc ui ↔
          writable f = true
          ∧ ∃ provider, provider ∈ providers m
                        ∧ f ∈ bibliographyPaths (data (load_next ui doc provider)) doc ui).
Proof.
  intros Hresolve.
  destruct (promise_all_of_resolved (load_flag ui doc <$> providers m)) as [bs Hall].
  { intros p (provider & -> & Hin)%list_elem_of_fmap. by apply Hresolve. }
  unfold isWritable. rewrite (load_writable_flag _ _ _ _ Hall). simpl.
  unfold writableBibliographyFiles.
  split; [|split].
  - intros Hw.
    assert (Hnot : ¬ (shouldAllowWrites (load ui doc m).1 doc ui = true))
      by (rewrite Hw; done).
    rewrite shouldAllowWrites_spec in Hnot. split; [|tauto].
    apply filter_nil_iff. intros f Hf Hwf. apply Hnot. right. by exists f.
  - intros Hw Hfiles Hnil.
    apply shouldAllowWrites_spec in Hw as [?|(f & Hf & Hwf)]; [done|].
    rewrite filter_nil_iff in Hnil. by apply (Hnil f).
  - intros f. rewrite list_elem_of_filter. unfold bibliographyFiles.
    rewrite load_providers, <- list_fmap_compose.
    split.
    + intros [Hw (l & Hl & Hf)%elem_of_concat]. split; [done|].
      apply list_elem_of_fmap in Hl as (provider & -> & Hin). by exists provider.
    + intros [Hw (provider & Hin & Hf)]. split; [done|].
      apply elem_of_concat. eexists. split; [|exact Hf].
      by apply (list_elem_of_fmap_2 (λ provider, _) _ provider).
Qed.

Lemma find_provider_Some m k p :
  find_provider m k = Some p → p ∈ providers m ∧ Some (key p) = k.
Proof.
  unfold find_provider.
  destruct (list_find _ _) as [[n q]|] eqn:Hfind; [|done].
  intros [= <-]. apply list_find_Some in Hfind as (Hl & Hk & _).
  split; [by eapply list_elem_of_lookup_2 | done].
Qed.

Lemma find_provider_None m k :
  find_provider m k = None ↔ ∀ p, p ∈ providers m → Some (key p) ≠ k.
Proof.
  unfold find_provider. rewrite fmap_None, list_find_None, Forall_forall. done.
Qed.

Lemma load_next_key ui doc p : key (load_next ui doc p) = key p.
Proof. done. Qed.

(** The provider found under a key after a load is the one found before,
    in its state after the load. *)
Lemma find_provider_load ui doc m k :
  find_provider (load ui doc m).1 k = load_next ui doc <$> find_provider m k.
Proof.
  unfold find_provider. rewrite load_providers.
  induction (providers m) as [|a l IH]; [done|].
  rewrite fmap_cons. simpl.
  destruct (decide (Some (key a) = k)) as [Ha|Ha]; [done|].
  - rewrite <- !option_fmap_compose in *.
    destruct (list_find _ (load_next ui doc <$> l)) as [[??]|],
             (list_find _ l) as [[??]|]; simpl in *; congruence.
Qed.

(** X8. [providerName(k)] is defined exactly when some provider has key
    [k] and is then the name of the first such provider; a load does not
    change the answer. *)
Theorem providerName_spec m k :
  (is_Some (providerName m k) ↔ ∃ p, p ∈ providers m ∧ key p = k)
  ∧ (∀ n, providerName m k = Some n →
          ∃ l1 p l2, providers m = l1 ++ p :: l2 ∧ key p = k ∧ name p = n
                     ∧ ∀ q, q ∈ l1 → key q ≠ k)
  ∧ (∀ ui doc, providerName (load ui doc m).1 k = providerName m k).
Proof.
  unfold providerName. split; [|split].
  - rewrite fmap_is_Some. split.
    + intros [p Hp]. apply find_provider_Some in Hp as [? [= ?]]. by exists p.
    + intros (p & Hin & Hk).
      destruct (find_provider m (Some k)) as [q|] eqn:Hfind; [by eexists|].
      rewrite find_provider_None in Hfind. destruct (Hfind p Hin). by f_equal.
  - intros n. unfold find_provider.
    destruct (list_find _ _) as [[i p]|] eqn:Hfind; [|done].
    intros [= <-]. apply list_find_Some in Hfind as (Hl & [= Hk] & Hbefore).
    exists (take i (providers m)), p, (drop (S i) (providers m)).
    split; [symmetry; by apply take_drop_middle|]. split; [done|]. split; [done|].
    intros q [j [Hq Hj]%lookup_take_Some]%list_elem_of_lookup Hkq.
    apply (Hbefore j q Hq Hj). by f_equal.
  - intros ui doc. rewrite find_provider_load.
    by destruct (find_provider m (Some k)).
Qed.

Lemma warning_Some m w :
  warning m = Some w →
  w ≠ "" ∧ ∃ l1 p l2, providers m = l1 ++ p :: l2
        ∧ warningMessage (data p) = Some w
        ∧ ∀ q, q ∈ l1 → truthy_string (warningMessage (data q)) = false.
(* the first provider with a non-empty message *)
Proof.
  unfold warning.
  destruct (list_find has_warning (providers m)) as [[i p]|] eqn:Hfind; [|done].
  simpl. intros Hw.
  apply list_find_Some in Hfind as (Hl & Hp & Hbefore).
  unfold has_warning in *. rewrite Hw in Hp. simpl in Hp.
  split.
  - intros ->. done.
  - exists (take i (providers m)), p, (drop (S i) (providers m)).
    split; [symmetry; by apply take_drop_middle|]. split; [done|].
    intros q [j [Hq Hj]%lookup_take_Some]%list_elem_of_lookup.
    specialize (Hbefore j q Hq Hj). by destruct (truthy_string _).
Qed.

Lemma warning_None m :
  warning m = None ↔
  ∀ p, p ∈ providers m → truthy_string (warningMessage (data p)) = false.
Proof.
  unfold warning.
  destruct (list_find has_warning (providers m)) as [[i p]|] eqn:Hfind; simpl.
  - apply list_find_Some in Hfind as (Hl & Hp & _). unfold has_warning in Hp.
    split.
    + intros Hw. rewrite Hw in Hp. done.
    + intros Hnone. apply list_elem_of_lookup_2 in Hl.
      rewrite (Hnone p Hl) in Hp. done.
  - apply list_find_None in Hfind. rewrite Forall_forall in Hfind.
    split; [|done]. intros _ p Hp. specialize (Hfind p Hp).
    unfold has_warning in Hfind. by destruct (truthy_string _).
Qed.

(** X9. [warning()] is the message of the first provider, in registration
    order, whose message is a non-empty string; it is [undefined] exactly
    when every provider's message is [undefined] or empty, and it is
    never the empty string. *)
Theorem warning_first_nonempty m :
  (∀ w, warning m = Some w →
        w ≠ ""
        ∧ ∃ l1 p l2, providers m = l1 ++ p :: l2
            ∧ warningMessage (data p) = Some w
            ∧ ∀ q, q ∈ l1 → truthy_string (warningMessage (data q)) = false)
  ∧ (warning m = None ↔
     ∀ p, p ∈ providers m → truthy_string (warningMessage (data p)) = false).
Proof. split; [apply warning_Some | apply warning_None]. Qed.

(** X10. [warningForProvider(k)] is [undefined] for an undefined or empty
    key and for a key no provider has; otherwise it is the message of the
    first provider with that key.  A non-empty message it reports implies
    that [warning()] reports a message too. *)
Theorem warningForProvider_spec m k :
  (truthy_string k = false → warningForProvider m k = None)
  ∧ ((∀ p, p ∈ providers m → Some (key p) ≠ k) → warningForProvider m k = None)
  ∧ (∀ w, warningForProvider m k = Some w →
          ∃ p, p ∈ providers m ∧ Some (key p) = k ∧ warningMessage (data p) = Some w)
  ∧ (∀ w, warningForProvider m k = Some w → w ≠ "" → is_Some (warning m)).
Proof.
  assert (Hsome : ∀ w, warningForProvider m k = Some w →
    ∃ p, p ∈ providers m ∧ Some (key p) = k ∧ warningMessage (data p) = Some w).
  { unfold warningForProvider. intros w.
    destruct (truthy_string k); [|done].
    destruct (find_provider m k) as [p|] eqn:Hfind; [|done].
    apply find_provider_Some in Hfind as [??]. intros ?. by exists p. }
  split; [|split; [|split]].
  - unfold warningForProvider. by intros ->.
  - intros Hnone%find_provider_None. unfold warningForProvider.
    rewrite Hnone. by destruct (truthy_string k).
  - done.
  - intros w (p & Hin & _ & Hw)%Hsome Hne.
    destruct (warning m) eqn:Hwarn; [by eexists|].
    rewrite warning_None in Hwarn. specialize (Hwarn p Hin).
    rewrite Hw in Hwarn. simpl in Hwarn.
    by rewrite bool_decide_eq_false_2 in Hwarn.
Qed.

(** X22. For a provider key that no provider of the manager has, the
    undefined key among them, [generateBibLaTeX] resolves to the generic
    conversion [toBibLaTeX(id, csl)] and asks no provider; a load of the
    manager does not change that. *)
Theorem generateBibLaTeX_without_provider m ui i c k :
  (∀ p, p ∈ providers m → Some (key p) ≠ k) →
  generateBibLaTeX m ui i c k = Resolved (toBibLaTeX i c)
  ∧ (∀ ui' doc,
       generateBibLaTeX (load ui' doc m).1 ui i c k = Resolved (toBibLaTeX i c)).
Proof.
  intros Hnone%find_provider_None. split.
  - by apply generateBibLaTeX_not_found.
  - intros ui' doc. apply generateBibLaTeX_not_found.
    by rewrite find_provider_load, Hnone.
Qed.

End FilesNamesWarnings.

Section SearchAndInvariants.
Context {H : Host}.
Implicit Types (m : BibliographyManager) (ui : EditorUI) (doc : ProsemirrorNode).

(** ** Scoped searches *)

Lemma searchAllSources_NoDup m query limit :
  NoDup (id <$> searchAllSources m query limit).
Proof. rewrite searchAllSources_unfold. apply uniqby_from_NoDup. Qed.

Lemma search_scope_sublist m query p c :
  search m query p c `sublist_of` search m query p None
  ∧ search m query p None `sublist_of` search m query None None.
Proof.
  unfold search. simpl. rewrite andb_false_r.
  destruct (truthy_string query), (truthy_string p), (truthy_string c); simpl;
    try (split; done);
    unfold searchProviderCollection, searchProvider;
    rewrite ?sourcesForProviderCollection_filter, ?sourcesForProvider_filter;
    split; try done; apply sublist_filter.
Qed.

Lemma search_sublist_global m query p c :
  search m query p c `sublist_of` search m query None None.
Proof.
  etrans; [apply (proj1 (search_scope_sublist m query p c))
          |apply (proj2 (search_scope_sublist m query p c))].
Qed.

Lemma search_NoDup m query p c : NoDup (id <$> search m query p c).
Proof.
  apply (sublist_NoDup _ (id <$> search m query None None));
    [|apply fmap_sublist, search_sublist_global].
  unfold search. simpl.
  destruct (truthy_string query); [apply searchAllSources_NoDup | apply allSources_NoDup].
Qed.

(** X11. Narrowing the scope of [search] never adds a result: for every
    query, the result for a provider and a collection is a part of the
    result for the provider, which is a part of the result with no scope,
    in the same order; and no result holds two sources with one id. *)
Theorem search_scope_narrows m query p c :
  search m query p c `sublist_of` search m query p None
  ∧ search m query p None `sublist_of` search m query None None
  ∧ NoDup (id <$> search m query p c)
  ∧ (∀ s, s ∈ search m query p c → truthy_string p = true →
          Some (providerKey s) = p
          ∧ (truthy_string c = true → ∃ k, c = Some k ∧ k ∈ collectionKeys s)).
Proof.
  split; [apply (proj1 (search_scope_sublist m query p c))|].
  split; [apply (proj2 (search_scope_sublist m query p c))|].
  split; [apply search_NoDup|].
  intros s Hs Hp. destruct p as [p|]; [|done]. revert Hs.
  unfold search. rewrite Hp. simpl.
  unfold searchProviderCollection, searchProvider.
  rewrite sourcesForProviderCollection_filter, sourcesForProvider_filter.
  destruct (truthy_string c) eqn:Hc.
  - destruct c as [k|]; [|done]. simpl.
    destruct (truthy_string query); rewrite !list_elem_of_filter;
      intros Hs; (split; [f_equal; tauto | intros _; exists k; tauto]).
  - destruct (truthy_string query); rewrite !list_elem_of_filter;
      intros Hs; (split; [f_equal; tauto | done]).
Qed.

(** ** Invariants of the manager *)

Lemma load_in_sync ui doc m : index_in_sync m → index_in_sync (load ui doc m).1.
Proof.
  unfold index_in_sync.
  destruct (load_cases ui doc m) as [[-> ->]|(_ & -> & ->)]; done.
Qed.

Lemma reachable_in_sync m : reachable m → index_in_sync m.
Proof. induction 1; [done | by apply load_in_sync]. Qed.

Lemma reachable_providers m : reachable m → length (providers m) = 2.
Proof.
  induction 1 as [|ui doc m _ IH]; [done|].
  by rewrite load_providers, length_fmap.
Qed.

Lemma load_index_keys ui doc m :
  (∀ index, fuse m = Some index → fuse_keys index = fst <$> kFields) →
  ∀ index, fuse (load ui doc m).1 = Some index → fuse_keys index = fst <$> kFields.
Proof.
  intros Hkeys index.
  destruct (load_cases ui doc m) as [[_ ->]|(_ & _ & ->)]; [apply Hkeys|].
  by intros [= <-].
Qed.

(** X12. Every manager a program can reach by constructing one and
    loading it any number of times, whatever the providers report, keeps
    its index in step with its aggregate list: either it has neither, or
    the index was built from exactly the list it holds, over the seven
    indexed fields; an unloaded manager has neither. *)
Theorem reachable_index_in_sync m :
  reachable m →
  match fuse m, sources m with
  | Some index, Some srcs =>
      fuse_docs index = srcs
      ∧ fuse_keys index = ["id"; "author.family"; "author.literal"; "title";
                           "author.given"; "issued"; "provider"]
  | None, None => True
  | _, _ => False
  end.
Proof.
  intros Hreach.
  pose proof (reachable_in_sync m Hreach) as Hsync. unfold index_in_sync in Hsync.
  assert (Hkeys : ∀ index, fuse m = Some index → fuse_keys index = fst <$> kFields).
  { clear Hsync. induction Hreach; [done | by apply load_index_keys]. }
  destruct (fuse m) as [index|], (sources m); try done.
  split; [done|]. by rewrite (Hkeys index).
Qed.

Lemma promise_all_rejected {A} (ps : list (Promise A)) r :
  promise_all ps = Rejected r → Rejected r ∈ ps.
Proof.
  induction ps as [|[a|r'] ps IH]; simpl; [done| |].
  - destruct (promise_all ps); [done|]. intros [= ->]. right. by apply IH.
  - intros [= ->]. by left.
Qed.

Lemma promise_all_resolved_all {A} (ps : list (Promise A)) l p :
  promise_all ps = Resolved l → p ∈ ps → ∃ a, p = Resolved a.
Proof.
  intros ->%promise_all_resolved (a & -> & _)%list_elem_of_fmap. by exists a.
Qed.

Lemma load_flags_of ui doc m :
  ((λ provider, provider_load provider (getDocumentPath ui)
      (getDefaultResourceDir ui) (parseYamlNodes doc)) <$> providers m).*2
  = load_flag ui doc <$> providers m.
Proof. by rewrite <- list_fmap_compose. Qed.

(** A load that meets a rejected provider load leaves the three fields
    alone and rejects with that reason. *)
Lemma load_rejected ui doc m r :
  promise_all (load_flag ui doc <$> providers m) = Rejected r →
  (load ui doc m).2 = Rejected r
  ∧ sources (load ui doc m).1 = sources m
  ∧ fuse (load ui doc m).1 = fuse m
  ∧ writable_flag (load ui doc m).1 = writable_flag m.
Proof.
  intros Hall. unfold load. rewrite load_flags_of, Hall. done.
Qed.

(** X13. On a reachable manager a load completes exactly when the load of
    every provider resolves: the manager always has its two providers, so
    the reduction over their flags never meets an empty array. *)
Theorem reachable_load_completes ui doc m :
  reachable m →
  length (providers m) = 2
  ∧ ((load ui doc m).2 = Resolved () ↔
     ∀ provider, provider ∈ providers m →
       ∃ changed, load_flag ui doc provider = Resolved changed).
Proof.
  intros Hlen%reachable_providers. split; [done|].
  destruct (promise_all (load_flag ui doc <$> providers m)) as [bs|r] eqn:Hall.
  - split.
    + intros _ provider Hin.
      apply (promise_all_resolved_all (load_flag ui doc <$> providers m) bs);
        [done | by apply list_elem_of_fmap_2].
    + intros _. apply (load_settles ui doc m bs Hall).
      by destruct (providers m).
  - split.
    + apply load_rejected in Hall as [-> _]. done.
    + intros Hres. apply promise_all_rejected in Hall.
      apply list_elem_of_fmap in Hall as (provider & Hflag & Hin).
      destruct (Hres provider Hin) as [b Hb]. congruence.
Qed.

(** X14. If the load of some provider rejects, the manager's load rejects
    with the reason of a rejecting provider, and the aggregate list, the
    index and the writable flag are as they were before; only the
    providers have moved on. *)
Theorem load_rejection_keeps_state ui doc m provider reason :
  provider ∈ providers m →
  load_flag ui doc provider = Rejected reason →
  (∃ r, (load ui doc m).2 = Rejected r
        ∧ ∃ q, q ∈ providers m ∧ load_flag ui doc q = Rejected r)
  ∧ sources (load ui doc m).1 = sources m
  ∧ fuse (load ui doc m).1 = fuse m
  ∧ writable_flag (load ui doc m).1 = writable_flag m
  ∧ providers (load ui doc m).1 = load_next ui doc <$> providers m.
Proof.
  intros Hin Hflag.
  destruct (promise_all (load_flag ui doc <$> providers m)) as [bs|r] eqn:Hall.
  - exfalso.
    destruct (promise_all_resolved_all (load_flag ui doc <$> providers m) bs
                (load_flag ui doc provider) Hall)
      as [b Hb]; [by apply list_elem_of_fmap_2 | congruence].
  - pose proof (load_rejected ui doc m r Hall) as (Hr & Hs & Hf & Hw).
    split; [|by rewrite load_providers].
    exists r. split; [done|].
    apply promise_all_rejected in Hall.
    apply list_elem_of_fmap in Hall as (q & ? & ?). by exists q.
Qed.

(** ** Search results and the aggregate list *)

Lemma allSources_covers m s :
  s ∈ default [] (sources m) →
  isWritable m = true ∨ providerKey s = kLocalBiliographyProviderKey →
  ∃ s', s' ∈ allSources m ∧ id s' = id s.
Proof.
  intros Hs Hvis. rewrite allSources_unfold.
  apply (uniqby_from_covers id []); [|by intros ?%elem_of_nil].
  destruct (isWritable m); [done|].
  apply list_elem_of_filter. by destruct Hvis.
Qed.

(** X15. When the ranking of the index returns indexed documents only, a
    fuzzy search on a reachable, writable manager returns sources of the
    aggregate list, and every id it returns is an id of [allSources()]:
    the search finds no source that the list queries do not know. *)
Theorem search_results_are_known m query p c s :
  rank_sound H → reachable m → isWritable m = true →
  truthy_string query = true →
  s ∈ search m query p c →
  s ∈ default [] (sources m)
  ∧ ∃ s', s' ∈ allSources m ∧ id s' = id s.
Proof.
  intros Hsound Hsync%reachable_in_sync Hw Hq Hs.
  assert (Hin : s ∈ default [] (sources m)).
  { assert (Hall : s ∈ search m query None None).
    { eapply elem_of_sublist; [exact Hs|]. apply search_sublist_global. }
    revert Hall. unfold search. rewrite Hq. simpl.
    rewrite searchAllSources_unfold, Hw. unfold uniqby.
    intros [Hhit _]%uniqby_from_elem.
    apply elem_of_take in Hhit as (i & Hhit & _).
    apply list_elem_of_lookup_2 in Hhit.
    unfold matching, index_in_sync in *.
    destruct (fuse m) as [index|], (sources m) as [srcs|];
      try done; try (by apply elem_of_nil in Hhit).
    apply Hsound in Hhit. simpl. by rewrite <- Hsync. }
  split; [done|]. apply allSources_covers; by auto.
Qed.

Lemma load_changed_sources ui doc m bs provider :
  promise_all (load_flag ui doc <$> providers m) = Resolved bs →
  provider ∈ providers m → load_flag ui doc provider = Resolved true →
  sources (load ui doc m).1 =
    Some (concat ((λ provider, items (data provider)) <$> providers (load ui doc m).1)).
Proof.
  intros Hall Hin Hflag.
  assert (Hred : reduce_or bs = Some true).
  { apply reduce_or_elem.
    pose proof (promise_all_resolved _ _ Hall) as Hbs.
    assert (Hres : Resolved true ∈ load_flag ui doc <$> providers m)
      by (rewrite <- Hflag; by apply list_elem_of_fmap_2).
    rewrite Hbs in Hres.
    by apply list_elem_of_fmap in Hres as (b & [= <-] & ?). }
  unfold load. rewrite load_flags_of, Hall, Hred. done.
Qed.

(** X16. After a load in which every provider load resolves and one
    reports a change, the aggregate list is the items of the providers in
    provider order, and every item of every provider that the write
    policy lets through has its id in [allSources()]. *)
Theorem load_with_change_shows_every_item ui doc m :
  (∀ provider, provider ∈ providers m →
     ∃ changed, load_flag ui doc provider = Resolved changed) →
  (∃ provider, provider ∈ providers m ∧ load_flag ui doc provider = Resolved true) →
  sources (load ui doc m).1 =
    Some (concat ((λ provider, items (data provider)) <$> providers (load ui doc m).1))
  ∧ ∀ provider s,
      provider ∈ providers (load ui doc m).1 → s ∈ items (data provider) →
      isWritable (load ui doc m).1 = true
        ∨ providerKey s = kLocalBiliographyProviderKey →
      ∃ s', s' ∈ allSources (load ui doc m).1 ∧ id s' = id s.
Proof.
  intros Hresolve (provider & Hin & Hflag).
  destruct (promise_all_of_resolved (load_flag ui doc <$> providers m)) as [bs Hall].
  { intros p (q & -> & Hq)%list_elem_of_fmap. by apply Hresolve. }
  pose proof (load_changed_sources ui doc m bs provider Hall Hin Hflag) as Hsrc.
  split; [done|].
  intros q s Hq Hs Hvis. apply allSources_covers; [|done].
  rewrite Hsrc. simpl. apply elem_of_concat. eexists. split; [|exact Hs].
  by apply (list_elem_of_fmap_2 (λ provider, _) _ q).
Qed.

End SearchAndInvariants.

(** ** [computeChange] *)

Section computeChange_facts.
Local Open Scope nat_scope.
Implicit Types (oldVal newVal : list N).

Lemma same_code_true a b : same_code a b = true ↔ ∃ x, a = Some x ∧ b = Some x.
Proof.
  unfold same_code. destruct a as [x|], b as [y|];
    try (split; [done | by intros (? & ? & ?)]).
  rewrite bool_decide_eq_true. split; [intros ->; by exists y|].
  by intros (z & [= ->] & [= ->]).
Qed.

(** What the first loop establishes once it has stopped. *)
Lemma scan_start_spec fuel oldVal newVal oldEnd start :
  oldEnd ≤ length oldVal → start ≤ oldEnd → oldEnd - start ≤ fuel →
  start ≤ length newVal → take start oldVal = take start newVal →
  let s := scan_start fuel oldVal newVal oldEnd start in
  start ≤ s ∧ s ≤ oldEnd ∧ s ≤ length newVal
  ∧ take s oldVal = take s newVal
  ∧ (s < oldEnd → same_code (charCodeAt oldVal s) (charCodeAt newVal s) = false).
Proof.
  revert start. induction fuel as [|fuel IH]; intros start Hold Hs Hfuel Hnew Hpre; simpl.
  - repeat split; try done; lia.
  - destruct (bool_decide (start < oldEnd)) eqn:Hlt; simpl.
    + apply bool_decide_eq_true in Hlt.
      destruct (same_code _ _) eqn:Hsame.
      * apply same_code_true in Hsame as (x & Hx & Hy). unfold charCodeAt in *.
        destruct (IH (S start)) as (? & ? & ? & ? & ?); try lia.
        { apply lookup_lt_Some in Hy. lia. }
        { rewrite (take_S_r _ _ _ Hx), (take_S_r _ _ _ Hy). by rewrite Hpre. }
        repeat split; try done; lia.
      * repeat split; try done; lia.
    + apply bool_decide_eq_false in Hlt. repeat split; try done; lia.
Qed.

(** What the second loop establishes once it has stopped. *)
Lemma scan_ends_spec fuel oldVal newVal start oldEnd newEnd :
  oldEnd ≤ length oldVal → newEnd ≤ length newVal →
  start ≤ oldEnd → start ≤ newEnd → oldEnd - start ≤ fuel →
  drop oldEnd oldVal = drop newEnd newVal →
  let e := scan_ends fuel oldVal newVal start oldEnd newEnd in
  start ≤ e.1 ∧ e.1 ≤ oldEnd ∧ start ≤ e.2 ∧ e.2 ≤ newEnd
  ∧ drop e.1 oldVal = drop e.2 newVal
  ∧ (start < e.1 → start < e.2 →
     same_code (charCodeAt oldVal (e.1 - 1)) (charCodeAt newVal (e.2 - 1)) = false).
Proof.
  revert oldEnd newEnd.
  induction fuel as [|fuel IH]; intros oldEnd newEnd Hold Hnew Hso Hsn Hfuel Hsuf; simpl.
  - repeat split; try done; lia.
  - destruct (bool_decide (start < oldEnd)) eqn:Hlto; simpl;
      [|apply bool_decide_eq_false in Hlto; repeat split; try done; lia].
    destruct (bool_decide (start < newEnd)) eqn:Hltn; simpl;
      [|apply bool_decide_eq_false in Hltn; repeat split; try done; lia].
    apply bool_decide_eq_true in Hlto, Hltn.
    destruct (same_code _ _) eqn:Hsame; [|repeat split; try done; lia].
    apply same_code_true in Hsame as (x & Hx & Hy). unfold charCodeAt in *.
    destruct (IH (oldEnd - 1) (newEnd - 1)) as (? & ? & ? & ? & ? & ?); try lia.
    { rewrite (drop_S _ _ _ Hx), (drop_S _ _ _ Hy).
      replace (S (oldEnd - 1)) with oldEnd by lia.
      replace (S (newEnd - 1)) with newEnd by lia. by rewrite Hsuf. }
    repeat split; try done; lia.
Qed.

(** The facts about a computed change from which the rest follows. *)
Lemma computeChange_within_spec fuel oldVal newVal c :
  length oldVal ≤ fuel →
  computeChange_within fuel oldVal newVal = Some c →
  ∃ newEnd,
    oldVal ≠ newVal
    ∧ change_from c ≤ change_to c ∧ change_to c ≤ length oldVal
    ∧ change_from c ≤ newEnd ∧ newEnd ≤ length newVal
    ∧ change_text c = slice newVal (change_from c) newEnd
    ∧ take (change_from c) oldVal = take (change_from c) newVal
    ∧ drop (change_to c) oldVal = drop newEnd newVal
    ∧ (change_from c < length oldVal →
       same_code (charCodeAt oldVal (change_from c))
                 (charCodeAt newVal (change_from c)) = false)
    ∧ (change_from c < change_to c → change_from c < newEnd →
       same_code (charCodeAt oldVal (change_to c - 1))
                 (charCodeAt newVal (newEnd - 1)) = false).
Proof.
  intros Hfuel. unfold computeChange_within.
  case_bool_decide as Hne; [done|]. intros [= <-]. simpl.
  destruct (scan_start_spec fuel oldVal newVal (length oldVal) 0)
    as (_ & Hs1 & Hs2 & Hpre & Hexit1); try done; try lia.
  set (s := scan_start fuel oldVal newVal (length oldVal) 0) in *.
  assert (Hsuf : drop (length oldVal) oldVal = drop (length newVal) newVal)
    by by rewrite !drop_all.
  destruct (scan_ends_spec fuel oldVal newVal s (length oldVal) (length newVal))
    as (He1 & He2 & He3 & He4 & Hsuf' & Hexit2); try done; try lia.
  set (e := scan_ends fuel oldVal newVal s (length oldVal) (length newVal)) in *.
  exists e.2. repeat split; try done.
Qed.

Lemma computeChange_applies fuel oldVal newVal c :
  length oldVal ≤ fuel →
  computeChange_within fuel oldVal newVal = Some c →
  apply_change oldVal c = newVal.
Proof.
  intros Hfuel Hc.
  destruct (computeChange_within_spec _ _ _ _ Hfuel Hc)
    as (ne & _ & _ & _ & Hle & _ & Htext & Hpre & Hsuf & _).
  unfold apply_change. rewrite Htext, Hpre, Hsuf. unfold slice.
  replace (drop ne newVal)
    with (drop (ne - change_from c) (drop (change_from c) newVal)).
  - by rewrite take_drop, take_drop.
  - rewrite drop_drop. f_equal. lia.
Qed.

(** The loops stop by their conditions: more fuel changes nothing. *)
Lemma scan_start_enough fuel oldVal newVal oldEnd start :
  oldEnd - start ≤ fuel →
  scan_start fuel oldVal newVal oldEnd start
  = scan_start (oldEnd - start) oldVal newVal oldEnd start.
Proof.
  revert start. induction fuel as [|fuel IH]; intros start Hfuel; simpl.
  - by replace (oldEnd - start) with 0 by lia.
  - destruct (bool_decide (start < oldEnd)) eqn:Hlt; simpl.
    + apply bool_decide_eq_true in Hlt.
      replace (oldEnd - start) with (S (oldEnd - S start)) by lia. simpl.
      rewrite bool_decide_eq_true_2 by done. simpl.
      destruct (same_code _ _); [|done]. apply IH. lia.
    + apply bool_decide_eq_false in Hlt.
      replace (oldEnd - start) with 0 by lia. done.
Qed.

Lemma scan_ends_enough fuel oldVal newVal start oldEnd newEnd :
  oldEnd - start ≤ fuel →
  scan_ends fuel oldVal newVal start oldEnd newEnd
  = scan_ends (oldEnd - start) oldVal newVal start oldEnd newEnd.
Proof.
  revert oldEnd newEnd. induction fuel as [|fuel IH]; intros oldEnd newEnd Hfuel; simpl.
  - by replace (oldEnd - start) with 0 by lia.
  - destruct (bool_decide (start < oldEnd)) eqn:Hlt; simpl.
    + apply bool_decide_eq_true in Hlt.
      replace (oldEnd - start) with (S (oldEnd - 1 - start)) by lia. simpl.
      rewrite (bool_decide_eq_true_2 (start < oldEnd)) by done. simpl.
      destruct (bool_decide (start < newEnd) && same_code _ _); [|done].
      apply IH. lia.
    + apply bool_decide_eq_false in Hlt.
      replace (oldEnd - start) with 0 by lia. done.
Qed.

Lemma computeChange_within_enough fuel oldVal newVal :
  length oldVal ≤ fuel →
  computeChange_within fuel oldVal newVal = computeChange oldVal newVal.
Proof.
  intros Hfuel. unfold computeChange, computeChange_within.
  case_bool_decide; [done|].
  rewrite (scan_start_enough fuel) by lia.
  rewrite (scan_start_enough (length oldVal)) by lia.
  set (s := scan_start _ _ _ _ _).
  rewrite (scan_ends_enough fuel) by lia.
  rewrite (scan_ends_enough (length oldVal)) by lia. done.
Qed.

(** X17. [computeChange] returns [null] exactly when the two strings are
    equal.  Otherwise it returns a change that does something: it removes
    or inserts at least one code unit.  The loops stop by their own
    conditions: any larger bound on their iterations gives the same
    result. *)
Theorem computeChange_null_iff_equal oldVal newVal :
  (computeChange oldVal newVal = None ↔ oldVal = newVal)
  ∧ (∀ c, computeChange oldVal newVal = Some c →
          change_from c < change_to c ∨ change_text c ≠ [])
  ∧ (∀ fuel, length oldVal ≤ fuel →
             computeChange_within fuel oldVal newVal = computeChange oldVal newVal).
Proof.
  split; [|split].
  - unfold computeChange, computeChange_within. case_bool_decide; split; done.
  - intros c Hc.
    pose proof (computeChange_applies (length oldVal) oldVal newVal c (le_n _) Hc) as Happ.
    destruct (computeChange_within_spec (length oldVal) oldVal newVal c (le_n _) Hc)
      as (_ & Hne & Hle & _).
    destruct (decide (change_from c < change_to c)) as [?|Hge]; [by left|].
    right. intros Hnil. apply Hne. rewrite <- Happ. unfold apply_change.
    rewrite Hnil. simpl.
    replace (change_to c) with (change_from c) by lia. by rewrite take_drop.
  - intros fuel Hfuel. by apply computeChange_within_enough.
Qed.

(** X18. Applying the change [computeChange] returns to the old string
    gives the new string: the code units of the old string before [from],
    the text of the change, and the code units of the old string from
    [to] on.  The range lies inside the old string, and the lengths add
    up. *)
Theorem computeChange_rebuilds_new oldVal newVal c :
  computeChange oldVal newVal = Some c →
  change_from c ≤ change_to c ∧ change_to c ≤ length oldVal
  ∧ take (change_from c) oldVal ++ change_text c ++ drop (change_to c) oldVal
    = newVal
  ∧ length newVal + (change_to c - change_from c)
    = length oldVal + length (change_text c).
Proof.
  intros Hc.
  pose proof (computeChange_applies (length oldVal) oldVal newVal c (le_n _) Hc) as Happ.
  destruct (computeChange_within_spec (length oldVal) oldVal newVal c (le_n _) Hc)
    as (_ & _ & Hle1 & Hle2 & _).
  split; [done|]. split; [done|]. split; [done|].
  rewrite <- Happ at 1. unfold apply_change.
  rewrite !length_app, length_take, length_drop. lia.
Qed.

(** X19. The change [computeChange] returns is as small as can be: it
    starts at the first index at which the two strings differ, and when
    it both removes and inserts code units, the removed and the inserted
    text differ in their first code unit and in their last one. *)
Theorem computeChange_is_minimal oldVal newVal c :
  computeChange oldVal newVal = Some c →
  take (change_from c) oldVal = take (change_from c) newVal
  ∧ (change_from c < length oldVal →
     oldVal !! change_from c ≠ newVal !! change_from c)
  ∧ (change_from c < change_to c → change_text c ≠ [] →
     oldVal !! change_from c ≠ change_text c !! 0
     ∧ oldVal !! (change_to c - 1) ≠ last (change_text c)).
Proof.
  intros Hc.
  destruct (computeChange_within_spec (length oldVal) oldVal newVal c (le_n _) Hc)
    as (ne & _ & Hft & Hto & Hfn & Hnn & Htext & Hpre & Hsuf & Hexit1 & Hexit2).
  assert (Hdiff : ∀ i j, i < length oldVal →
            same_code (charCodeAt oldVal i) (charCodeAt newVal j) = false →
            oldVal !! i ≠ newVal !! j).
  { intros i j Hi Hsame Heq.
    destruct (lookup_lt_is_Some_2 oldVal i Hi) as [x Hx].
    assert (same_code (charCodeAt oldVal i) (charCodeAt newVal j) = true);
      [|congruence].
    apply same_code_true. exists x. unfold charCodeAt. by rewrite <- Heq. }
  split; [done|]. split; [by auto|].
  intros Hlt Hnonempty.
  assert (Hlen : length (change_text c) = ne - change_from c).
  { rewrite Htext. unfold slice. rewrite length_take, length_drop. lia. }
  assert (Hpos : change_from c < ne).
  { destruct (change_text c); [done|]. simpl in Hlen. lia. }
  split.
  - rewrite Htext. unfold slice.
    rewrite lookup_take_lt, lookup_drop, Nat.add_0_r by lia.
    apply Hdiff; [lia|]. apply Hexit1. lia.
  - rewrite last_lookup, Hlen, Htext. unfold slice.
    rewrite lookup_take_lt, lookup_drop by lia.
    replace (change_from c + pred (ne - change_from c)) with (ne - 1) by lia.
    apply Hdiff; [lia|]. by apply Hexit2.
Qed.

End computeChange_facts.

(** ** The bibliography panel *)

Section Panel_facts.
Context {H : Host}.
Variable kZoteroProviderKey : string.
Variable included : BibliographySource → bool.
Local Open Scope Z_scope.

Lemma incrementIndex_in_range st index :
  itemData st ≠ [] → selection_in_range (incrementIndex st index).
Proof.
  unfold selection_in_range, incrementIndex. simpl.
  destruct (itemData st); [done|]. intros _. simpl length. lia.
Qed.

(** X20. While the list of the panel is not empty, a key press leaves the
    list as it is and the selection inside it: the arrow and page keys
    move the selection by one item or one page and stop at the first and
    at the last item, Enter and Space make their requests without moving
    it, and every other key does nothing. *)
Theorem handleListKeyDown_keeps_selection height key' st :
  itemData st ≠ [] → selection_in_range st →
  let after := (handleListKeyDown included height key' st).1 in
  itemData after = itemData st
  ∧ searchTerm after = searchTerm st
  ∧ selection_in_range after
  ∧ (key' = "ArrowUp" → selectedIndex after = Z.max 0 (selectedIndex st - 1))
  ∧ (key' = "ArrowDown" →
     selectedIndex after
     = Z.min (selectedIndex st + 1) (Z.of_nat (length (itemData st)) - 1))
  ∧ (key' ∉ ["ArrowUp"; "ArrowDown"; "PageDown"; "PageUp"] →
     selectedIndex after = selectedIndex st)
  ∧ (key' ∉ ["Enter"; " "] → (handleListKeyDown included height key' st).2 = []).
Proof.
  intros Hne Hin after. subst after. unfold handleListKeyDown.
  unfold selection_in_range in Hin.
  repeat case_bool_decide; subst; simpl;
    (split; [done|]); (split; [done|]);
    (split; [try done; by apply incrementIndex_in_range|]);
    (split; [try done; intros _; lia|]);
    (split; [try done; intros _; lia|]);
    (split; [try done; intros Hk; exfalso; apply Hk; repeat first [apply list_elem_of_here | apply list_elem_of_further]|]);
    try done; intros Hk; exfalso; apply Hk; repeat first [apply list_elem_of_here | apply list_elem_of_further].
Qed.

(** The list a node selects is part of what the search with no scope
    returns. *)
Lemma loadData_cases bibMgr node st :
  let after := loadData kZoteroProviderKey bibMgr (Some node) st in
  after = st
  ∨ (selectedIndex after = 0 ∧ searchTerm after = searchTerm st
     ∧ ∃ p c, itemData after = search bibMgr (searchTerm st) p c).
Proof.
  unfold loadData. destruct (_ && _ && _); [by left|]. right. simpl. eauto.
Qed.

(** X21. Selecting a node either leaves the panel as it is (no node, or a
    node of a type the panel does not know) or resets the selection to
    the first item and shows a list that is a part, in order and without
    two sources of one id, of what [search] returns for the search box
    with no scope.  The root node shows exactly that result; with an
    empty search box it shows [allSources()]. *)
Theorem loadData_shows_part_of_search bibMgr selectedNode st :
  let after := loadData kZoteroProviderKey bibMgr selectedNode st in
  (after = st
   ∨ (selectedIndex after = 0 ∧ searchTerm after = searchTerm st
      ∧ itemData after `sublist_of` search bibMgr (searchTerm st) None None
      ∧ NoDup (id <$> itemData after)))
  ∧ (selectedNode = None → after = st)
  ∧ (∀ node, selectedNode = Some node →
       node_type node = kAllLocalSourcesRootNodeType →
       itemData after = search bibMgr (searchTerm st) None None
       ∧ (truthy_string (searchTerm st) = false →
          itemData after = allSources bibMgr))
  ∧ (∀ node, selectedNode = Some node →
       node_type node ≠ kLocalBiliographyProviderKey →
       node_type node ≠ kZoteroProviderKey →
       node_type node ≠ kAllLocalSourcesRootNodeType →
       after = st).
Proof.
  intros after. subst after. split; [|split; [|split]].
  - destruct selectedNode as [node|]; [|by left].
    destruct (loadData_cases bibMgr node st) as [->|(? & ? & p & c & Hitems)];
      [by left|].
    right. split; [done|]. split; [done|]. rewrite Hitems.
    split; [apply search_sublist_global | apply search_NoDup].
  - by intros ->.
  - intros node -> Hroot. unfold loadData. rewrite Hroot.
    rewrite (bool_decide_eq_false_2 (_ ≠ kAllLocalSourcesRootNodeType)) by (by intros ?).
    rewrite !andb_false_r, bool_decide_eq_true_2 by done. simpl.
    split; [done|]. intros Hq. unfold search. by rewrite Hq.
  - intros node -> H1 H2 H3. unfold loadData.
    by rewrite !bool_decide_eq_true_2 by done.
Qed.

End Panel_facts.

(** * More runs on concrete inputs *)

Lemma demo_flags_resolve (local zotero : @BibliographyDataProvider demoHost) :
  (∃ b, load_flag (H:=demoHost) () () local = Resolved b) →
  (∃ b, load_flag (H:=demoHost) () () zotero = Resolved b) →
  ∀ provider, provider ∈ [local; zotero] →
    ∃ changed, load_flag (H:=demoHost) () () provider = Resolved changed.
Proof.
  intros Hl Hz provider [->|[->|[]%elem_of_nil]%elem_of_cons]%elem_of_cons; done.
Qed.

Lemma writableBibliographyFiles_after_load_witness :
  (∀ provider, provider ∈ providers read_only →
     ∃ changed, load_flag (H:=demoHost) () () provider = Resolved changed)
  ∧ isWritable (load (H:=demoHost) () () read_only).1 = false
  ∧ writableBibliographyFiles (H:=demoHost) (load (H:=demoHost) () () read_only).1 () () = []
  ∧ bibliographyFiles (H:=demoHost) (load (H:=demoHost) () () read_only).1 () () ≠ [].
Proof.
  assert (Hflags : ∀ provider, provider ∈ providers read_only →
            ∃ changed, load_flag (H:=demoHost) () () provider = Resolved changed).
  { apply demo_flags_resolve; eexists; vm_compute; reflexivity. }
  assert (Hw : isWritable (load (H:=demoHost) () () read_only).1 = false)
    by (vm_compute; reflexivity).
  destruct (writableBibliographyFiles_after_load (H:=demoHost) () () read_only Hflags)
    as (Hnot & _ & _).
  split; [exact Hflags|]. split; [exact Hw|]. exact (Hnot Hw).
Defined.

Lemma reachable_index_in_sync_witness :
  reachable two_providers_loaded
  ∧ (fuse_docs <$> fuse two_providers_loaded) = sources two_providers_loaded
  ∧ is_Some (fuse two_providers_loaded).
Proof.
  assert (Hreach : reachable two_providers_loaded).
  { unfold two_providers_loaded. apply reachable_load, reachable_new. }
  pose proof (reachable_index_in_sync two_providers_loaded Hreach) as Hsync.
  split; [exact Hreach|].
  destruct (fuse two_providers_loaded) as [index|] eqn:Hf;
    destruct (sources two_providers_loaded) as [srcs|] eqn:Hs; try (exfalso; exact Hsync).
  - destruct Hsync as [Hd _]. simpl. rewrite Hd.
    split; [reflexivity | eexists; reflexivity].
  - vm_compute in Hf. discriminate.
Defined.

Lemma reachable_load_completes_witness :
  reachable two_providers_loaded
  ∧ (load (H:=demoHost) () () two_providers_loaded).2 = Resolved ().
Proof.
  assert (Hreach : reachable two_providers_loaded).
  { unfold two_providers_loaded. apply reachable_load, reachable_new. }
  destruct (reachable_load_completes (H:=demoHost) () () two_providers_loaded Hreach)
    as [_ [_ Hdone]].
  split; [exact Hreach|]. apply Hdone.
  unfold two_providers_loaded. rewrite load_providers. simpl.
  apply demo_flags_resolve; eexists; vm_compute; reflexivity.
Defined.

Lemma load_rejection_keeps_state_witness :
  provider_offline kZotero "Zotero" ∈ providers remote_offline
  ∧ load_flag (H:=demoHost) () () (provider_offline kZotero "Zotero") = Rejected "offline"
  ∧ (load (H:=demoHost) () () remote_offline).2 = Rejected "offline"
  ∧ sources (load (H:=demoHost) () () remote_offline).1 = sources two_providers_loaded
  ∧ fuse (load (H:=demoHost) () () remote_offline).1 = fuse two_providers_loaded.
Proof.
  assert (Hin : provider_offline kZotero "Zotero" ∈ providers remote_offline).
  { simpl. apply list_elem_of_further, list_elem_of_here. }
  assert (Hflag : load_flag (H:=demoHost) () () (provider_offline kZotero "Zotero")
                  = Rejected "offline") by reflexivity.
  destruct (load_rejection_keeps_state (H:=demoHost) () () remote_offline
              (provider_offline kZotero "Zotero") "offline" Hin Hflag)
    as (_ & Hs & Hf & _).
  split; [exact Hin|]. split; [exact Hflag|].
  split; [vm_compute; reflexivity|]. split; [exact Hs | exact Hf].
Defined.

Lemma prefix_rank_sound : rank_sound demoHost.
Proof.
  intros keys docs query x Hx. simpl in Hx. unfold prefix_rank in Hx.
  by apply list_elem_of_filter in Hx as [_ ?].
Qed.

Lemma search_results_are_known_witness :
  rank_sound demoHost ∧ reachable two_providers_loaded
  ∧ isWritable two_providers_loaded = true
  ∧ truthy_string (Some "a") = true
  ∧ source_of kLocal "a1" [] ∈ search two_providers_loaded (Some "a") None None
  ∧ ∃ s', s' ∈ allSources two_providers_loaded ∧ id s' = "a1".
Proof.
  assert (Hreach : reachable two_providers_loaded).
  { unfold two_providers_loaded. apply reachable_load, reachable_new. }
  assert (Hw : isWritable two_providers_loaded = true) by (vm_compute; reflexivity).
  assert (Hs : source_of kLocal "a1" [] ∈ search two_providers_loaded (Some "a") None None).
  { replace (search two_providers_loaded (Some "a") None None)
      with [source_of kLocal "a1" []] by (vm_compute; reflexivity).
    apply list_elem_of_here. }
  destruct (search_results_are_known two_providers_loaded (Some "a") None None
              (source_of kLocal "a1" []) prefix_rank_sound Hreach Hw eq_refl Hs)
    as [_ Hknown].
  split; [exact prefix_rank_sound|]. split; [exact Hreach|]. split; [exact Hw|].
  split; [reflexivity|]. split; [exact Hs | exact Hknown].
Defined.

Lemma load_with_change_shows_every_item_witness :
  (∀ provider, provider ∈ providers two_providers →
     ∃ changed, load_flag (H:=demoHost) () () provider = Resolved changed)
  ∧ (∃ provider, provider ∈ providers two_providers
                 ∧ load_flag (H:=demoHost) () () provider = Resolved true)
  ∧ sources (load (H:=demoHost) () () two_providers).1
    = Some [source_of kLocal "a1" []; source_of kLocal "b1" [];
            source_of kZotero "a1" ["C1"]; source_of kZotero "c1" ["C1"]].
Proof.
  assert (Hflags : ∀ provider, provider ∈ providers two_providers →
            ∃ changed, load_flag (H:=demoHost) () () provider = Resolved changed).
  { apply demo_flags_resolve; eexists; vm_compute; reflexivity. }
  assert (Hchanged : ∃ provider, provider ∈ providers two_providers
            ∧ load_flag (H:=demoHost) () () provider = Resolved true).
  { eexists. split; [apply list_elem_of_here | vm_compute; reflexivity]. }
  destruct (load_with_change_shows_every_item (H:=demoHost) () () two_providers
              Hflags Hchanged) as [Hsrc _].
  split; [exact Hflags|]. split; [exact Hchanged|].
  rewrite Hsrc. vm_compute. reflexivity.
Defined.

Lemma computeChange_rebuilds_new_witness :
  computeChange abcd axd
    = Some {| change_from := 1; change_to := 3; change_text := [120%N] |}
  ∧ take 1 abcd ++ [120%N] ++ drop 3 abcd = axd.
Proof.
  assert (Hc : computeChange abcd axd
               = Some {| change_from := 1; change_to := 3; change_text := [120%N] |})
    by (vm_compute; reflexivity).
  destruct (computeChange_rebuilds_new abcd axd _ Hc) as (_ & _ & Hnew & _).
  split; [exact Hc | exact Hnew].
Defined.

Lemma computeChange_is_minimal_witness :
  computeChange abcd axd
    = Some {| change_from := 1; change_to := 3; change_text := [120%N] |}
  ∧ abcd !! 1 ≠ axd !! 1.
Proof.
  assert (Hc : computeChange abcd axd
               = Some {| change_from := 1; change_to := 3; change_text := [120%N] |})
    by (vm_compute; reflexivity).
  destruct (computeChange_is_minimal abcd axd _ Hc) as (_ & Hfirst & _).
  split; [exact Hc|]. apply Hfirst. simpl. lia.
Defined.

Lemma handleListKeyDown_keeps_selection_witness :
  itemData panel_on_last ≠ [] ∧ selection_in_range panel_on_last
  ∧ selectedIndex (handleListKeyDown (λ _, false) 640 "ArrowDown" panel_on_last).1 = 2%Z
  ∧ selection_in_range (handleListKeyDown (λ _, false) 640 "PageUp" panel_on_last).1.
Proof.
  assert (Hne : itemData panel_on_last ≠ []) by (vm_compute; discriminate).
  assert (Hin : selection_in_range panel_on_last) by (vm_compute; split; [discriminate | reflexivity]).
  destruct (handleListKeyDown_keeps_selection (λ _, false) 640 "ArrowDown"
              panel_on_last Hne Hin) as (_ & _ & _ & _ & Hdown & _).
  destruct (handleListKeyDown_keeps_selection (λ _, false) 640 "PageUp"
              panel_on_last Hne Hin) as (_ & _ & Hrange & _).
  split; [exact Hne|]. split; [exact Hin|]. split; [|exact Hrange].
  rewrite (Hdown eq_refl). vm_compute. reflexivity.
Defined.

Lemma generateBibLaTeX_without_provider_witness :
  (∀ p, p ∈ providers two_providers_loaded → Some (key p) ≠ None)
  ∧ generateBibLaTeX (H:=demoHost) two_providers_loaded () "a1" ∅ None
    = Resolved (Some "@misc{a1}").
Proof.
  assert (Hnone : ∀ p, p ∈ providers two_providers_loaded → Some (key p) ≠ None)
    by (intros p _; discriminate).
  destruct (generateBibLaTeX_without_provider (H:=demoHost) two_providers_loaded
              () "a1" ∅ None Hnone) as [Hgen _].
  split; [exact Hnone|]. rewrite Hgen. vm_compute. reflexivity.
Defined.
